(** * Quine-McCluskey prime implicant generation (QuinMcAlgo.py)

    A shallow embedding of the class [QuinMcAlgo]: the term combiner
    [combine_terms], the grouping [group_by_ones] and the round loop of
    [minimize], followed by the properties of the reduction.

    Python values are modelled as follows.
    - [str] is [string]; iterating a string visits its characters, so the
      loops run over [list_ascii_of_string].
    - the [dict] from population count to a list of terms is a
      [gmap nat (list string)]; [sorted(d.keys())] sorts its keys.
    - a [set] of terms is a [gset string].
    - [None] against a string is [option string].
    - the [while] loop is run with fuel; the theorems show how much fuel
      is enough, so the loop is total. *)

From Stdlib Require Import Ascii String.
From stdpp Require Import gmap strings list fin_maps sorting.

#[local] Set Warnings "-clear-no-such-hyp".

Open Scope string_scope.
Open Scope nat_scope.
Open Scope list_scope.

(** ** Terms *)

Definition chars (t : string) : list ascii := list_ascii_of_string t.

Definition ones (l : list ascii) : nat :=
  length (filter (λ c, c = "1"%char) l).

(** [term.count('1')]. *)
Definition count_ones (t : string) : nat := ones (chars t).

(** ** [combine_terms] *)

(** The body of the [for b1, b2 in zip(term1, term2)] loop, with the two
    locals [combined] and [found_difference] threaded through.  [None] is
    the early [return None]. *)
Fixpoint combine_loop (ps : list (ascii * ascii))
    (combined : list ascii) (found_difference : bool) : option (list ascii) :=
  match ps with
  | [] => Some combined
  | (b1, b2) :: ps' =>
      if decide (b1 = b2) then
        combine_loop ps' (combined ++ [b1]) found_difference
      else if negb found_difference then
        combine_loop ps' (combined ++ ["-"%char]) true
      else None
  end.

Definition combine_terms (term1 term2 : string) : option string :=
  string_of_list_ascii <$>
    combine_loop (zip (chars term1) (chars term2)) [] false.

(** ** [group_by_ones] *)

(** [d.setdefault(k, []).append(x)]. *)
Definition setdefault_append (k : nat) (x : string)
    (d : gmap nat (list string)) : gmap nat (list string) :=
  <[k := default [] (d !! k) ++ [x]]> d.

Definition group_by_ones (terms : list string) : gmap nat (list string) :=
  foldl (λ groups term, setdefault_append (count_ones term) term groups)
        ∅ terms.

(** ** [minimize] *)

(** Python truth value of the result of [combine_terms]: [None] and the
    empty string are false. *)
Definition truthy (r : option string) : bool :=
  match r with
  | Some s => negb (bool_decide (s = ""))
  | None => false
  end.

(** The innermost statement of the round, on the pair of locals
    [(next_groups, used)]. *)
Definition try_pair (g1 : nat) (term1 term2 : string)
    (acc : gmap nat (list string) * gset string)
    : gmap nat (list string) * gset string :=
  let combined := combine_terms term1 term2 in
  if truthy combined then
    (setdefault_append g1 (default "" combined) acc.1,
     {[term2]} ∪ ({[term1]} ∪ acc.2))
  else acc.

Definition group_keys (groups : gmap nat (list string)) : list nat :=
  merge_sort (≤) (map_to_list groups).*1.

(** The three nested [for] loops of one round. *)
Definition combine_groups (groups : gmap nat (list string))
    : gmap nat (list string) * gset string :=
  let keys := group_keys groups in
  foldl (λ acc '(g1, g2),
    foldl (λ acc term1,
      foldl (λ acc term2, try_pair g1 term1 term2 acc)
            acc (groups !!! g2))
          acc (groups !!! g1))
    (∅, ∅) (zip keys (tail keys)).

Record state := State {
  groups : gmap nat (list string);
  unchecked : gset string;
  checked : gset string
}.

(** [set(itertools.chain( *d.values()))]. *)
Definition chain_values (d : gmap nat (list string)) : gset string :=
  list_to_set (mjoin (map_to_list d).*2).

(** One execution of the body of [while groups:]. *)
Definition round (st : state) : state :=
  let '(next_groups, used) := combine_groups (groups st) in
  {| groups := next_groups;
     unchecked := chain_values next_groups;
     checked := checked st ∪ (unchecked st ∖ used) |}.

(** The [while] loop; the first component counts the rounds executed. *)
Fixpoint minimize_loop (fuel : nat) (st : state) : option (nat * state) :=
  if decide (groups st = ∅) then Some (0, st)
  else match fuel with
       | 0 => None
       | S fuel' =>
           (λ r : nat * state, (S r.1, r.2)) <$> minimize_loop fuel' (round st)
       end.

Definition minimize_init (minterms : list string) : state :=
  {| groups := group_by_ones minterms;
     unchecked := list_to_set minterms;
     checked := ∅ |}.

(** [minimize]: the number of rounds and the set [prime_implicants]. *)
Definition minimize_rounds (fuel : nat) (minterms : list string)
    : option (nat * gset string) :=
  (λ r : nat * state, (r.1, ∅ ∪ checked r.2)) <$>
    minimize_loop fuel (minimize_init minterms).

Definition minimize (fuel : nat) (minterms : list string)
    : option (gset string) :=
  snd <$> minimize_rounds fuel minterms.

(** ** Vocabulary of the properties *)

(** [t] with position [i] replaced by [ch]. *)
Definition replace_at (i : nat) (ch : ascii) (t : string) : string :=
  string_of_list_ascii (<[i := ch]> (chars t)).

(** The slice [t[:n]]. *)
Definition str_take (n : nat) (t : string) : string :=
  string_of_list_ascii (take n (chars t)).

(** A minterm: every symbol is ['0'] or ['1']. *)
Definition binary (t : string) : Prop :=
  Forall (λ c, c = "0"%char ∨ c = "1"%char) (chars t).

(** A term: every symbol is ['0'], ['1'] or ['-']. *)
Definition ternary (t : string) : Prop :=
  Forall (λ c, c = "0"%char ∨ c = "1"%char ∨ c = "-"%char) (chars t).

(** A symbol [x] of a term admits the symbol [y] of a minterm. *)
Definition admits (x y : ascii) : Prop := x = "-"%char ∨ x = y.

#[global] Instance admits_dec x y : Decision (admits x y).
Proof. unfold admits. apply _. Defined.

(** [t] subsumes [m]: the two have the same length and every position of
    [t] that is not ['-'] equals the corresponding position of [m]. *)
Definition subsumes (t m : string) : Prop :=
  Forall2 admits (chars t) (chars m).

#[global] Instance binary_dec t : Decision (binary t).
Proof. unfold binary. apply _. Defined.
#[global] Instance ternary_dec t : Decision (ternary t).
Proof. unfold ternary. apply _. Defined.
#[global] Instance subsumes_dec t m : Decision (subsumes t m).
Proof. unfold subsumes. apply _. Defined.

(** [t] is one of the terms stored under key [k] of the dict [d]. *)
Definition in_group (d : gmap nat (list string)) (k : nat) (t : string)
    : Prop :=
  ∃ ts, d !! k = Some ts ∧ t ∈ ts.

(** No key of [d] holds an empty list. *)
Definition no_empty_group (d : gmap nat (list string)) : Prop :=
  ∀ k, d !! k ≠ Some [].

(** [combine_terms t1 t2] is a string [c] that the test [if combined:]
    accepts. *)
Definition combines (t1 t2 c : string) : Prop :=
  combine_terms t1 t2 = Some c ∧ c ≠ "".

(** The pairs [zip(group_keys, group_keys[1:])]. *)
Definition key_pairs (groups : gmap nat (list string)) : list (nat * nat) :=
  zip (group_keys groups) (tail (group_keys groups)).

(** The triples [(g1, term1, term2)] in the order the nested loops of a
    round visit them. *)
Definition candidates (groups : gmap nat (list string))
    : list (nat * string * string) :=
  '(g1, g2) ← key_pairs groups;
  term1 ← groups !!! g1;
  term2 ← groups !!! g2;
  [(g1, term1, term2)].

(** [t] is an input of a successful combination of the round on
    [groups]: it ends in the set [used]. *)
Definition used_in (groups : gmap nat (list string)) (t : string) : Prop :=
  ∃ g1 g2 t1 t2 c,
    (g1, g2) ∈ key_pairs groups ∧
    in_group groups g1 t1 ∧ in_group groups g2 t2 ∧
    combines t1 t2 c ∧ (t = t1 ∨ t = t2).

(** The inputs the reducer is specified for: minterms over ['0'] and
    ['1'], all of length [n]. *)
Definition valid_input (n : nat) (minterms : list string) : Prop :=
  Forall (λ m, String.length m = n ∧ binary m) minterms.

#[global] Instance valid_input_dec n minterms :
  Decision (valid_input n minterms).
Proof. unfold valid_input. apply _. Defined.

(** [t] covers input minterms only. *)
Definition sound (minterms : list string) (t : string) : Prop :=
  ∀ m, binary m → subsumes t m → m ∈ minterms.

Definition good_term (minterms : list string) (n : nat) (t : string) : Prop :=
  String.length t = n ∧ ternary t ∧ sound minterms t.

(** What holds of the loop state at the start of every round. *)
Record inv (minterms : list string) (n : nat) (st : state) : Prop := Inv {
  inv_no_empty : no_empty_group (groups st);
  inv_unchecked : ∀ t, t ∈ unchecked st ↔ ∃ k, in_group (groups st) k t;
  inv_group : ∀ k t, in_group (groups st) k t →
                     count_ones t = k ∧ good_term minterms n t;
  inv_checked : ∀ t, t ∈ checked st → good_term minterms n t;
  inv_cover : ∀ m, m ∈ minterms →
                   ∃ t, (t ∈ checked st ∨ t ∈ unchecked st) ∧ subsumes t m
}.

(** Two dicts that hold the same terms under the same keys, whatever the
    order and the repetitions inside the lists. *)
Definition groups_equiv (d1 d2 : gmap nat (list string)) : Prop :=
  no_empty_group d1 ∧ no_empty_group d2 ∧
  ∀ k t, in_group d1 k t ↔ in_group d2 k t.

Definition state_equiv (s1 s2 : state) : Prop :=
  groups_equiv (groups s1) (groups s2) ∧
  unchecked s1 = unchecked s2 ∧ checked s1 = checked s2.

(** The innermost statement applied to one visited triple. *)
Definition visit (acc : gmap nat (list string) * gset string)
    (x : nat * string * string) : gmap nat (list string) * gset string :=
  try_pair x.1.1 x.1.2 x.2 acc.

(** ** Implicants *)

Definition dashes (l : list ascii) : nat :=
  length (filter (λ c, c = "-"%char) l).

(** The number of ['-'] symbols of a term. *)
Definition count_dashes (t : string) : nat := dashes (chars t).

(** [t] can be widened: one of its symbols other than ['-'] can be
    replaced by ['-'] and the term still covers input minterms only. *)
Definition widenable (minterms : list string) (t : string) : Prop :=
  ∃ i x, chars t !! i = Some x ∧ x ≠ "-"%char ∧
         sound minterms (replace_at i "-" t).

(** A prime implicant of the function given by [minterms]: an implicant,
    that is a term of length [n] that covers input minterms only, which
    no other implicant subsumes. *)
Definition prime_implicant (minterms : list string) (n : nat) (t : string)
    : Prop :=
  good_term minterms n t ∧
  ∀ t', good_term minterms n t' → subsumes t' t → t' = t.

(** The loop state after [r] rounds, exactly: the generation holds the
    implicants with [r] dashes, and [checked] those with fewer dashes
    that cannot be widened. *)
Record exact (minterms : list string) (n r : nat) (st : state) : Prop := Exact {
  exact_unchecked : ∀ t, t ∈ unchecked st ↔
                         good_term minterms n t ∧ count_dashes t = r;
  exact_checked : ∀ t, t ∈ checked st ↔
                       good_term minterms n t ∧ ¬ widenable minterms t ∧
                       count_dashes t < r
}.

(** ** [parse_pla] and [write_pla]

    A character is an [ascii], so the model covers the texts whose
    characters lie below 256.  [parse_pla] is modelled from the list
    [lines] that [file.readlines()] returns, and [write_pla] as the list
    of the strings passed to [file.write], in order. *)

(** [str.isspace] on the characters below 256: tab to carriage return,
    the four separators 28 to 31, space, next line and no-break space. *)
Definition is_space (c : ascii) : bool :=
  let k := nat_of_ascii c in
  (9 <=? k) && (k <=? 13) || (28 <=? k) && (k <=? 32)
  || (k =? 133) || (k =? 160).

Fixpoint lstrip_chars (l : list ascii) : list ascii :=
  match l with
  | [] => []
  | c :: l' => if is_space c then lstrip_chars l' else l
  end.

Definition strip_chars (l : list ascii) : list ascii :=
  reverse (lstrip_chars (reverse (lstrip_chars l))).

(** [s.strip()]. *)
Definition strip (s : string) : string :=
  string_of_list_ascii (strip_chars (chars s)).

Fixpoint split_chars (sep : ascii) (l : list ascii) : list (list ascii) :=
  match l with
  | [] => [[]]
  | c :: l' =>
      if decide (c = sep) then [] :: split_chars sep l'
      else match split_chars sep l' with
           | [] => [[c]]
           | p :: ps => (c :: p) :: ps
           end
  end.

(** [s.split(sep)] for a separator of one character. *)
Definition split (sep : ascii) (s : string) : list string :=
  string_of_list_ascii <$> split_chars sep (chars s).

(** [s.startswith(prefix)]. *)
Definition startswith (prefix s : string) : bool := String.prefix prefix s.

(** The result of a call that may raise [ValueError]. *)
Inductive outcome (A : Type) : Type :=
  | Returned (a : A)
  | ValueError.
Arguments Returned {A} a.
Arguments ValueError {A}.

(** The loop [for line in body] of [parse_pla], on the local [minterms]
    and on the arguments of [print] so far.  Unpacking
    [line.split(" ")] into two names raises [ValueError] unless the
    split has two parts. *)
Fixpoint parse_body (body minterms printed : list string)
    : list string * outcome (list string) :=
  match body with
  | [] => (printed, Returned minterms)
  | line :: body' =>
      match split " " line with
      | [binary; output] =>
          if decide (output = "1") then
            parse_body body' (minterms ++ [binary]) (printed ++ [binary])
          else parse_body body' minterms printed
      | _ => (printed, ValueError)
      end
  end.

Definition pla_header (lines : list string) : list string :=
  strip <$> filter (λ line, startswith "." line) lines.

Definition pla_body (lines : list string) : list string :=
  strip <$> filter (λ line, ¬ startswith "." line ∧ strip line ≠ "") lines.

(** [parse_pla] after [lines = file.readlines()]: what was printed, and
    the pair returned or the exception. *)
Definition parse_pla (lines : list string)
    : list string * outcome (list string * list string) :=
  let header := pla_header lines in
  let body := pla_body lines in
  let r := parse_body body [] [] in
  (r.1, match r.2 with
        | Returned minterms => Returned (header, minterms)
        | ValueError => ValueError
        end).

(** The line feed character as a string. *)
Definition newline : string := String "010"%char "".

(** [s.replace(old, new)] for single characters. *)
Definition replace_char (old new : ascii) (s : string) : string :=
  string_of_list_ascii ((λ c, if decide (c = old) then new else c) <$> chars s).

(** The strings [write_pla] passes to [file.write], in order. *)
Definition write_pla (header minterms : list string) : list string :=
  ((λ line, line +:+ newline) <$> filter (λ line, strip line ≠ ".e") header)
  ++ ((λ term, replace_char "2" "-" term +:+ " 1" +:+ newline) <$> minterms)
  ++ [".e" +:+ newline].

(** The text of a file after the given writes, as text mode gives it
    back: where no write holds a carriage return, the translation of
    line ends on writing and on reading cancel out. *)
Definition file_text (writes : list string) : string :=
  foldr String.append "" writes.

(** The lines of a text read in text mode: a line ends after a line feed,
    and a carriage return, alone or followed by a line feed, ends a line
    and is read as one line feed. *)
Fixpoint readlines_chars (l cur : list ascii) : list (list ascii) :=
  match l with
  | [] => match cur with [] => [] | _ => [cur] end
  | c :: l' =>
      if decide (c = "010"%char) then
        (cur ++ ["010"%char]) :: readlines_chars l' []
      else if decide (c = "013"%char) then
        (cur ++ ["010"%char]) ::
          match l' with
          | c' :: l'' =>
              if decide (c' = "010"%char) then readlines_chars l'' []
              else readlines_chars l' []
          | [] => []
          end
      else readlines_chars l' (cur ++ [c])
  end.

(** [file.readlines()] on a file that holds [text]. *)
Definition readlines (text : string) : list string :=
  string_of_list_ascii <$> readlines_chars (chars text) [].

(** No line feed and no carriage return. *)
Definition one_line (s : string) : Prop :=
  Forall (λ c, c ≠ "010"%char ∧ c ≠ "013"%char) (chars s).

(** A term as [write_pla] accepts it: symbols ['0'], ['1'], ['-'] and the
    placeholder ['2']. *)
Definition writable (t : string) : Prop :=
  t ≠ "" ∧
  Forall (λ c, c = "0"%char ∨ c = "1"%char ∨ c = "-"%char ∨ c = "2"%char)
         (chars t).

#[global] Instance one_line_dec s : Decision (one_line s).
Proof. unfold one_line. apply _. Defined.
#[global] Instance writable_dec t : Decision (writable t).
Proof. unfold writable. apply _. Defined.

(** A header line that is read back as it is from its written form. *)
Definition back_ok_header (h : string) : Prop :=
  startswith "." h ∧ strip h = h.

(** A term whose written line is read back as a data line. *)
Definition back_ok_data (t : string) : Prop :=
  ¬ startswith "." ((t +:+ " 1") +:+ newline) ∧
  strip ((t +:+ " 1") +:+ newline) = (t +:+ " 1").

(** [s.count(c)] for a single character. *)
Definition count_char (c : ascii) (s : string) : nat :=
  length (filter (λ x, x = c) (chars s)).

(** What the body of the loop of [parse_pla] appends for a line that
    splits in two: the first part when the second is ["1"]. *)
Definition selected (line : string) : option string :=
  match split " " line with
  | [binary; output] => if decide (output = "1") then Some binary else None
  | _ => None
  end.

(** ** [main]

    [main] reads the input file, minimizes its minterms and writes the
    output file.  The two file names are fixed in the source; the model
    relates the text of the input file to the strings written to the
    output file.  [list(prime_implicants)] lists a set in an order the
    source does not fix, so any listing of the set is allowed. *)
Definition main_writes (fuel : nat) (text : string) (writes : list string)
    : Prop :=
  ∃ header minterms res listing,
    (parse_pla (readlines text)).2 = Returned (header, minterms) ∧
    minimize fuel minterms = Some res ∧
    listing ≡ₚ elements res ∧
    writes = write_pla header listing.

(** * Properties of [combine_terms] *)

Section combine.
Implicit Types a b c l : list ascii.

Lemma length_chars (t : string) : length (chars t) = String.length t.
Proof. induction t as [|x t IH]; simpl; [done | by rewrite IH]. Qed.

Lemma chars_inj (s t : string) : chars s = chars t → s = t.
Proof.
  intros E. rewrite <-(string_of_list_ascii_of_string s),
    <-(string_of_list_ascii_of_string t). unfold chars in E. by rewrite E.
Qed.

Lemma chars_of_list l : chars (string_of_list_ascii l) = l.
Proof. apply list_ascii_of_string_of_list_ascii. Qed.

(** Identical inputs are copied, whatever the flag. *)
Lemma combine_loop_refl a acc found :
  combine_loop (zip a a) acc found = Some (acc ++ a).
Proof.
  revert acc. induction a as [|x a IH]; intros acc; simpl.
  - by rewrite app_nil_r.
  - rewrite decide_True by done. rewrite IH. by rewrite <-app_assoc.
Qed.

(** One differing position, the rest shared. *)
Lemma combine_loop_one l1 l2 x y acc :
  x ≠ y →
  combine_loop (zip (l1 ++ x :: l2) (l1 ++ y :: l2)) acc false
  = Some (acc ++ l1 ++ "-"%char :: l2).
Proof.
  intros Hxy. revert acc. induction l1 as [|z l1 IH]; intros acc; simpl.
  - rewrite decide_False by done. simpl. rewrite combine_loop_refl.
    by rewrite <-app_assoc.
  - rewrite decide_True by done. rewrite IH. by rewrite <-app_assoc.
Qed.

(** After a first difference the rest must agree. *)
Lemma combine_loop_found a b acc c :
  length a = length b →
  combine_loop (zip a b) acc true = Some c →
  a = b ∧ c = acc ++ a.
Proof.
  revert b acc. induction a as [|x a IH]; intros [|y b] acc Hlen; simpl;
    try done.
  - intros [= <-]. by rewrite app_nil_r.
  - destruct (decide (x = y)) as [->|]; [|done].
    intros H. apply IH in H as [-> ->]; [|by simplify_eq/=].
    by rewrite <-app_assoc.
Qed.

(** The shape of every successful combination of equal-length inputs. *)
Lemma combine_loop_inv a b acc c :
  length a = length b →
  combine_loop (zip a b) acc false = Some c →
  (a = b ∧ c = acc ++ a) ∨
  ∃ l1 x y l2, x ≠ y ∧ a = l1 ++ x :: l2 ∧ b = l1 ++ y :: l2 ∧
               c = acc ++ l1 ++ "-"%char :: l2.
Proof.
  revert b acc. induction a as [|x a IH]; intros [|y b] acc Hlen; simpl;
    try done.
  - intros [= <-]. left. by rewrite app_nil_r.
  - destruct (decide (x = y)) as [->|Hxy]; simpl.
    + intros H. apply IH in H; [|by simplify_eq/=].
      destruct H as [[-> ->]|(l1 & x' & y' & l2 & ? & -> & -> & ->)].
      * left. by rewrite <-app_assoc.
      * right. exists (y :: l1), x', y', l2. by rewrite <-app_assoc.
    + intros H. apply combine_loop_found in H as [-> ->];
        [|by simplify_eq/=].
      right. exists [], x, y, b. by rewrite <-app_assoc.
Qed.

Lemma combine_terms_inv (t1 t2 c : string) :
  String.length t1 = String.length t2 →
  combine_terms t1 t2 = Some c →
  (t1 = t2 ∧ c = t1) ∨
  ∃ l1 x y l2, x ≠ y ∧ chars t1 = l1 ++ x :: l2 ∧
               chars t2 = l1 ++ y :: l2 ∧ chars c = l1 ++ "-"%char :: l2.
Proof.
  intros Hlen. unfold combine_terms.
  destruct (combine_loop _ _ _) as [r|] eqn:E; [|done]. intros [= <-].
  apply combine_loop_inv in E; [|by rewrite !length_chars].
  destruct E as [[E ->]|(l1 & x & y & l2 & ? & ? & ? & ->)].
  - left. apply chars_inj in E as ->. split; [done|].
    apply string_of_list_ascii_of_string.
  - right. exists l1, x, y, l2. by rewrite chars_of_list.
Qed.

Lemma combine_terms_refl (t : string) : combine_terms t t = Some t.
Proof.
  unfold combine_terms. rewrite combine_loop_refl. simpl.
  f_equal. apply string_of_list_ascii_of_string.
Qed.
End combine.

Section counting.
Implicit Types a b c l : list ascii.

Lemma ones_app l1 l2 : ones (l1 ++ l2) = ones l1 + ones l2.
Proof. unfold ones. by rewrite filter_app, length_app. Qed.

Lemma ones_cons x l :
  ones (x :: l) = (if decide (x = "1"%char) then 1 else 0) + ones l.
Proof. unfold ones. rewrite filter_cons. by case_decide. Qed.

Lemma ones_middle l1 x l2 :
  ones (l1 ++ x :: l2)
  = ones l1 + (if decide (x = "1"%char) then 1 else 0) + ones l2.
Proof. rewrite ones_app, ones_cons. lia. Qed.

Lemma ones_le_length l : ones l ≤ length l.
Proof. unfold ones. apply length_filter. Qed.

(** A successful combination keeps the population counts of its inputs
    within one of each other. *)
Lemma combine_terms_count_close (t1 t2 c : string) :
  String.length t1 = String.length t2 →
  combine_terms t1 t2 = Some c →
  count_ones t1 ≤ count_ones t2 + 1 ∧ count_ones t2 ≤ count_ones t1 + 1.
Proof.
  intros Hlen Hc. apply combine_terms_inv in Hc; [|done].
  destruct Hc as [[-> _]|(l1 & x & y & l2 & _ & E1 & E2 & _)]; [lia|].
  unfold count_ones. rewrite E1, E2, !ones_middle.
  repeat case_decide; lia.
Qed.

(** When the population count goes up from [t1] to [t2], the combined
    term keeps the count and the length of [t1]. *)
Lemma combine_terms_count_lower (t1 t2 c : string) :
  String.length t1 = String.length t2 →
  count_ones t1 < count_ones t2 →
  combine_terms t1 t2 = Some c →
  count_ones c = count_ones t1 ∧ String.length c = String.length t1.
Proof.
  intros Hlen Hlt Hc. apply combine_terms_inv in Hc; [|done].
  destruct Hc as [[-> _]|(l1 & x & y & l2 & _ & E1 & E2 & E3)]; [lia|].
  rewrite <-!length_chars. unfold count_ones in *.
  rewrite E1, E2, !ones_middle in Hlt.
  rewrite E1, E3, !ones_middle, !length_app. simpl.
  repeat case_decide; simplify_eq; lia.
Qed.
End counting.

(** * The group dictionaries *)

Section groups.
Implicit Types d : gmap nat (list string).

Lemma in_group_setdefault_append d k x k' t :
  in_group (setdefault_append k x d) k' t ↔
  in_group d k' t ∨ (k' = k ∧ t = x).
Proof.
  unfold in_group, setdefault_append.
  destruct (decide (k = k')) as [<-|Hne].
  - rewrite lookup_insert_eq. split.
    + intros (ts & [= <-] & Ht). apply elem_of_app in Ht as [Ht|Ht].
      * left. destruct (d !! k) as [ts|] eqn:E; simpl in Ht;
          [by exists ts | by apply elem_of_nil in Ht].
      * right. apply list_elem_of_singleton in Ht. done.
    + intros [(ts & E & Ht)|[_ ->]]; eexists; (split; [done|]);
        apply elem_of_app.
      * left. by rewrite E.
      * right. by apply list_elem_of_singleton.
  - rewrite lookup_insert_ne by done. naive_solver.
Qed.

Lemma no_empty_setdefault_append d k x :
  no_empty_group d → no_empty_group (setdefault_append k x d).
Proof.
  intros Hd k'. unfold setdefault_append.
  destruct (decide (k = k')) as [<-|Hne].
  - rewrite lookup_insert_eq. intros [= E]. by destruct (default [] (d !! k)).
  - rewrite lookup_insert_ne by done. apply Hd.
Qed.

Lemma in_group_lookup_total d k t : t ∈ d !!! k ↔ in_group d k t.
Proof.
  rewrite lookup_total_alt. unfold in_group.
  destruct (d !! k) as [ts|]; simpl.
  - naive_solver.
  - split; [by intros ?%elem_of_nil | naive_solver].
Qed.

Lemma in_group_dom d k t : in_group d k t → k ∈ dom d.
Proof. intros (ts & E & _). apply elem_of_dom. by exists ts. Qed.

Lemma dom_in_group d k :
  no_empty_group d → k ∈ dom d → ∃ t, in_group d k t.
Proof.
  intros Hd [ts E]%elem_of_dom. destruct ts as [|t ts]; [by apply Hd in E|].
  exists t, (t :: ts). split; [done | apply list_elem_of_here].
Qed.

Lemma no_in_group_empty d :
  no_empty_group d → (∀ k t, ¬ in_group d k t) → d = ∅.
Proof.
  intros Hd Hnone. apply map_empty. intros k.
  destruct (d !! k) as [ts|] eqn:E; [|done].
  destruct (dom_in_group d k Hd) as [t Ht]; [by apply elem_of_dom|].
  by apply Hnone in Ht.
Qed.

Lemma elem_of_chain_values d t : t ∈ chain_values d ↔ ∃ k, in_group d k t.
Proof.
  unfold chain_values, in_group. rewrite elem_of_list_to_set.
  split.
  - intros (ts & Ht & Hts)%list_elem_of_join.
    apply list_elem_of_fmap in Hts as ([k ts'] & -> & Hk).
    apply elem_of_map_to_list in Hk. by exists k, ts'.
  - intros (k & ts & E & Ht). apply list_elem_of_join. exists ts.
    split; [done|]. apply list_elem_of_fmap. exists (k, ts).
    split; [done|]. by apply elem_of_map_to_list.
Qed.

Lemma group_by_ones_snoc ms m :
  group_by_ones (ms ++ [m])
  = setdefault_append (count_ones m) m (group_by_ones ms).
Proof. unfold group_by_ones. by rewrite foldl_snoc. Qed.

Lemma no_empty_group_by_ones ms : no_empty_group (group_by_ones ms).
Proof.
  induction ms as [|m ms IH] using rev_ind.
  - intros k. unfold group_by_ones. simpl. by rewrite lookup_empty.
  - rewrite group_by_ones_snoc. by apply no_empty_setdefault_append.
Qed.

Lemma in_group_by_ones ms k t :
  in_group (group_by_ones ms) k t ↔ t ∈ ms ∧ count_ones t = k.
Proof.
  induction ms as [|m ms IH] using rev_ind.
  - unfold group_by_ones, in_group. simpl. split.
    + intros (ts & E & _). by rewrite lookup_empty in E.
    + intros [[]%elem_of_nil _].
  - rewrite group_by_ones_snoc, in_group_setdefault_append, IH,
      elem_of_app, list_elem_of_singleton. naive_solver.
Qed.
End groups.

(** * One round *)

Section round.
Implicit Types d groups : gmap nat (list string).

Lemma foldl_bind {A B C} (f : A → C → A) (g : B → list C) a (l : list B) :
  foldl f a (l ≫= g) = foldl (λ a x, foldl f a (g x)) a l.
Proof.
  revert a. induction l as [|x l IH]; intros a; [done|].
  change ((x :: l) ≫= g) with (g x ++ l ≫= g).
  by rewrite foldl_app, IH.
Qed.

Lemma foldl_ext {A B} (f g : A → B → A) a (l : list B) :
  (∀ a x, f a x = g a x) → foldl f a l = foldl g a l.
Proof.
  intros E. revert a. induction l as [|x l IH]; intros a; [done|].
  simpl. by rewrite E, IH.
Qed.

(** The nested loops are one pass over [candidates]. *)
Lemma combine_groups_flat groups :
  combine_groups groups = foldl visit (∅, ∅) (candidates groups).
Proof.
  unfold combine_groups, candidates, key_pairs. rewrite foldl_bind.
  apply foldl_ext. intros acc [g1 g2]. rewrite foldl_bind.
  apply foldl_ext. intros acc1 t1. rewrite foldl_bind.
  apply foldl_ext. intros acc2 t2. done.
Qed.

Lemma elem_of_candidates groups g1 t1 t2 :
  (g1, t1, t2) ∈ candidates groups ↔
  ∃ g2, (g1, g2) ∈ key_pairs groups ∧
        in_group groups g1 t1 ∧ in_group groups g2 t2.
Proof.
  unfold candidates. rewrite list_elem_of_bind. split.
  - intros ([g1' g2] & H & Hp).
    apply list_elem_of_bind in H as (t1' & H & H1).
    apply list_elem_of_bind in H as (t2' & H & H2).
    apply list_elem_of_singleton in H. simplify_eq.
    exists g2. by rewrite <-!in_group_lookup_total.
  - intros (g2 & Hp & H1 & H2). exists (g1, g2). split; [|done].
    apply list_elem_of_bind. exists t1.
    split; [|by apply in_group_lookup_total].
    apply list_elem_of_bind. exists t2.
    split; [|by apply in_group_lookup_total].
    by apply list_elem_of_singleton.
Qed.

Lemma truthy_combines t1 t2 :
  truthy (combine_terms t1 t2) = true ↔ ∃ c, combines t1 t2 c.
Proof.
  unfold combines, truthy. destruct (combine_terms t1 t2) as [c|].
  - rewrite negb_true_iff, bool_decide_eq_false. naive_solver.
  - naive_solver.
Qed.

Lemma visit_hit acc g1 t1 t2 c :
  combines t1 t2 c →
  visit acc (g1, t1, t2)
  = (setdefault_append g1 c acc.1, {[t2]} ∪ ({[t1]} ∪ acc.2)).
Proof.
  intros Hc. unfold visit, try_pair. simpl.
  rewrite (proj2 (truthy_combines t1 t2)) by eauto.
  destruct Hc as [-> _]. done.
Qed.

Lemma visit_miss acc g1 t1 t2 :
  (∀ c, ¬ combines t1 t2 c) → visit acc (g1, t1, t2) = acc.
Proof.
  intros Hc. unfold visit, try_pair. simpl.
  destruct (truthy _) eqn:E; [|done].
  apply truthy_combines in E as [c E]. by apply Hc in E.
Qed.

Lemma visit_cases acc g1 t1 t2 :
  (∃ c, combines t1 t2 c ∧
        visit acc (g1, t1, t2)
        = (setdefault_append g1 c acc.1, {[t2]} ∪ ({[t1]} ∪ acc.2))) ∨
  ((∀ c, ¬ combines t1 t2 c) ∧ visit acc (g1, t1, t2) = acc).
Proof.
  destruct (truthy (combine_terms t1 t2)) eqn:E.
  - apply truthy_combines in E as [c E]. left. exists c.
    split; [done | by apply visit_hit].
  - right. assert (∀ c, ¬ combines t1 t2 c) as Hn.
    { intros c Hc. assert (truthy (combine_terms t1 t2) = true)
        by (apply truthy_combines; eauto). congruence. }
    split; [done | by apply visit_miss].
Qed.

Lemma combines_fun t1 t2 c c' : combines t1 t2 c → combines t1 t2 c' → c = c'.
Proof. intros [E _] [E' _]. congruence. Qed.

Lemma foldl_visit_no_empty l acc :
  no_empty_group acc.1 → no_empty_group (foldl visit acc l).1.
Proof.
  revert acc. induction l as [|[[g1 t1] t2] l IH]; intros acc Hacc; [done|].
  simpl. apply IH.
  destruct (visit_cases acc g1 t1 t2) as [(c & _ & ->)|[_ ->]]; [|done].
  by apply no_empty_setdefault_append.
Qed.

Lemma foldl_visit_groups l acc k c :
  in_group (foldl visit acc l).1 k c ↔
  in_group acc.1 k c ∨ ∃ t1 t2, (k, t1, t2) ∈ l ∧ combines t1 t2 c.
Proof.
  revert acc. induction l as [|[[g1 t1] t2] l IH]; intros acc.
  - simpl. split; [by left|]. intros [?|(? & ? & []%elem_of_nil & _)]. done.
  - simpl. rewrite IH. clear IH.
    destruct (visit_cases acc g1 t1 t2) as [(c' & Hc' & ->)|[Hn ->]]; simpl.
    + rewrite in_group_setdefault_append. split.
      * intros [[?|[-> ->]]|(u1 & u2 & Hin & Hc)]; [by left| |].
        -- right. exists t1, t2. split; [apply list_elem_of_here | done].
        -- right. exists u1, u2. split; [by apply list_elem_of_further | done].
      * intros [?|(u1 & u2 & Hin & Hc)]; [by left; left|].
        apply elem_of_cons in Hin as [[= -> -> ->]|Hin].
        -- left; right. split; [done|]. by eapply combines_fun.
        -- right. by exists u1, u2.
    + split.
      * intros [?|(u1 & u2 & Hin & Hc)]; [by left|].
        right. exists u1, u2. split; [by apply list_elem_of_further | done].
      * intros [?|(u1 & u2 & Hin & Hc)]; [by left|].
        apply elem_of_cons in Hin as [[= -> -> ->]|Hin].
        -- by apply Hn in Hc.
        -- right. by exists u1, u2.
Qed.

Lemma foldl_visit_used l acc t :
  t ∈ (foldl visit acc l).2 ↔
  t ∈ acc.2 ∨ ∃ g1 t1 t2 c,
    (g1, t1, t2) ∈ l ∧ combines t1 t2 c ∧ (t = t1 ∨ t = t2).
Proof.
  revert acc. induction l as [|[[g1 t1] t2] l IH]; intros acc.
  - simpl. split; [by left|].
    intros [?|(? & ? & ? & ? & []%elem_of_nil & _)]. done.
  - simpl. rewrite IH. clear IH.
    destruct (visit_cases acc g1 t1 t2) as [(c' & Hc' & ->)|[Hn ->]]; simpl.
    + rewrite !elem_of_union, !elem_of_singleton. split.
      * intros [[->|[->|?]]|(h & u1 & u2 & c & Hin & Hc & Ht)].
        -- right. exists g1, t1, t2, c'.
           split; [apply list_elem_of_here | by auto].
        -- right. exists g1, t1, t2, c'.
           split; [apply list_elem_of_here | by auto].
        -- by left.
        -- right. exists h, u1, u2, c.
           split; [by apply list_elem_of_further | done].
      * intros [?|(h & u1 & u2 & c & Hin & Hc & Ht)]; [by auto|].
        apply elem_of_cons in Hin as [[= -> -> ->]|Hin].
        -- left. destruct Ht as [->| ->]; auto.
        -- right. by exists h, u1, u2, c.
    + split.
      * intros [?|(h & u1 & u2 & c & Hin & Hc & Ht)]; [by left|].
        right. exists h, u1, u2, c.
        split; [by apply list_elem_of_further | done].
      * intros [?|(h & u1 & u2 & c & Hin & Hc & Ht)]; [by left|].
        apply elem_of_cons in Hin as [[= -> -> ->]|Hin].
        -- by apply Hn in Hc.
        -- right. by exists h, u1, u2, c.
Qed.

Lemma elem_of_group_keys groups k : k ∈ group_keys groups ↔ k ∈ dom groups.
Proof.
  unfold group_keys. rewrite merge_sort_Permutation, list_elem_of_fmap,
    elem_of_dom. split.
  - intros ([k' ts] & -> & H%elem_of_map_to_list). by exists ts.
  - intros [ts H]. exists (k, ts). by rewrite elem_of_map_to_list.
Qed.

Lemma Sorted_adjacent_lt (l : list nat) x y :
  Sorted le l → NoDup l → (x, y) ∈ zip l (tail l) → x < y.
Proof.
  induction 1 as [|z l Hs IH Hhd]; intros Hnd Hin; simpl in Hin.
  - by apply elem_of_nil in Hin.
  - apply NoDup_cons in Hnd as [Hz Hnd].
    destruct l as [|z' l]; simpl in Hin; [by apply elem_of_nil in Hin|].
    apply elem_of_cons in Hin as [[= -> ->]|Hin].
    + apply HdRel_inv in Hhd.
      assert (z ≠ z') by (intros ->; apply Hz, list_elem_of_here). lia.
    + by apply IH.
Qed.

Lemma key_pairs_lt groups g1 g2 :
  (g1, g2) ∈ key_pairs groups →
  g1 < g2 ∧ g1 ∈ dom groups ∧ g2 ∈ dom groups.
Proof.
  unfold key_pairs. intros Hin. split; [|split].
  - eapply Sorted_adjacent_lt; [| |done].
    + apply (Sorted_merge_sort le).
    + unfold group_keys. rewrite merge_sort_Permutation.
      apply NoDup_fst_map_to_list.
  - apply elem_of_group_keys. by apply elem_of_zip_l in Hin.
  - apply elem_of_group_keys. apply elem_of_zip_r in Hin.
    destruct (group_keys groups); [by apply elem_of_nil in Hin|].
    by apply list_elem_of_further.
Qed.

(** Consecutive numbers of a sorted list without repetition are
    neighbours in it. *)
Lemma Sorted_succ_adjacent (l : list nat) k :
  Sorted le l → NoDup l → k ∈ l → S k ∈ l → (k, S k) ∈ zip l (tail l).
Proof.
  intros Hs%Sorted_StronglySorted; [|apply _].
  induction Hs as [|x l Hs IH Hall]; intros Hnd Hk HSk.
  - by apply elem_of_nil in Hk.
  - apply NoDup_cons in Hnd as [Hx Hnd]. rewrite Forall_forall in Hall.
    assert (∀ y, y ∈ l → x < y) as Hlt.
    { intros y Hy. pose proof (Hall y Hy).
      assert (x ≠ y) by (by intros ->). lia. }
    destruct l as [|y l]; simpl.
    { apply list_elem_of_singleton in Hk, HSk. lia. }
    apply elem_of_cons in Hk as [->|Hk].
    + apply elem_of_cons in HSk as [?|HSk]; [lia|].
      assert (y = S x) as ->; [|apply list_elem_of_here].
      pose proof (Hlt y (list_elem_of_here _ _)).
      apply StronglySorted_inv in Hs as [_ Hy]. rewrite Forall_forall in Hy.
      apply elem_of_cons in HSk as [?|HSk]; [done|].
      pose proof (Hy _ HSk). lia.
    + apply elem_of_cons in HSk as [E|HSk].
      { pose proof (Hlt k Hk). lia. }
      apply list_elem_of_further. by apply IH.
Qed.

Lemma round_eq st :
  round st
  = {| groups := (combine_groups (groups st)).1;
       unchecked := chain_values (combine_groups (groups st)).1;
       checked := checked st ∪ (unchecked st ∖ (combine_groups (groups st)).2) |}.
Proof. unfold round. by destruct (combine_groups (groups st)). Qed.

Lemma round_no_empty st : no_empty_group (groups (round st)).
Proof.
  rewrite round_eq, combine_groups_flat. simpl.
  apply foldl_visit_no_empty. intros k. simpl. by rewrite lookup_empty.
Qed.

Lemma in_group_empty k t : ¬ in_group ∅ k t.
Proof. intros (ts & E & _). by rewrite lookup_empty in E. Qed.

Lemma round_groups st k c :
  in_group (groups (round st)) k c ↔
  ∃ g2 t1 t2, (k, g2) ∈ key_pairs (groups st) ∧
              in_group (groups st) k t1 ∧ in_group (groups st) g2 t2 ∧
              combines t1 t2 c.
Proof.
  rewrite round_eq, combine_groups_flat. simpl.
  rewrite foldl_visit_groups. simpl. split.
  - intros [[]%in_group_empty|(t1 & t2 & Hin & Hc)].
    apply elem_of_candidates in Hin as (g2 & ? & ? & ?).
    by exists g2, t1, t2.
  - intros (g2 & t1 & t2 & ? & ? & ? & ?). right. exists t1, t2.
    split; [|done]. apply elem_of_candidates. by exists g2.
Qed.

Lemma round_unchecked st t :
  t ∈ unchecked (round st) ↔ ∃ k, in_group (groups (round st)) k t.
Proof. rewrite round_eq. simpl. apply elem_of_chain_values. Qed.

Lemma round_checked st t :
  t ∈ checked (round st) ↔
  t ∈ checked st ∨ (t ∈ unchecked st ∧ ¬ used_in (groups st) t).
Proof.
  rewrite round_eq, combine_groups_flat. simpl.
  rewrite elem_of_union, elem_of_difference, foldl_visit_used. simpl.
  assert ((t ∈ (∅ : gset string) ∨ ∃ g1 t1 t2 c,
             (g1, t1, t2) ∈ candidates (groups st) ∧ combines t1 t2 c ∧
             (t = t1 ∨ t = t2)) ↔ used_in (groups st) t) as ->; [|done].
  unfold used_in. split.
  - intros [[]%elem_of_empty|(g1 & t1 & t2 & c & Hin & Hc & Ht)].
    apply elem_of_candidates in Hin as (g2 & ? & ? & ?).
    by exists g1, g2, t1, t2, c.
  - intros (g1 & g2 & t1 & t2 & c & ? & ? & ? & ? & ?). right.
    exists g1, t1, t2, c. split; [|done].
    apply elem_of_candidates. by exists g2.
Qed.

Lemma round_used st t :
  t ∈ (combine_groups (groups st)).2 ↔ used_in (groups st) t.
Proof.
  rewrite combine_groups_flat, foldl_visit_used. simpl.
  unfold used_in. split.
  - intros [[]%elem_of_empty|(g1 & t1 & t2 & c & Hin & Hc & Ht)].
    apply elem_of_candidates in Hin as (g2 & ? & ? & ?).
    by exists g1, g2, t1, t2, c.
  - intros (g1 & g2 & t1 & t2 & c & ? & ? & ? & ? & ?). right.
    exists g1, t1, t2, c. split; [|done].
    apply elem_of_candidates. by exists g2.
Qed.
End round.

(** * Subsumption *)

Section subsumption.
Implicit Types t m c : string.
Implicit Types l k : list ascii.

Lemma subsumes_refl t : subsumes t t.
Proof. apply Forall_Forall2_diag, Forall_forall. by right. Qed.

Lemma subsumes_length t m : subsumes t m → String.length t = String.length m.
Proof. rewrite <-!length_chars. apply Forall2_length. Qed.

(** A term without ['-'] subsumes itself only. *)
Lemma subsumes_binary_eq t m : binary t → subsumes t m → m = t.
Proof.
  unfold binary, subsumes. intros Hb Hs. apply chars_inj.
  induction Hs as [|x y l k Hxy _ IH]; [done|].
  apply Forall_cons in Hb as [Hx Hb].
  f_equal; [|by apply IH].
  destruct Hxy as [->|]; [|done]. by destruct Hx.
Qed.

Lemma Forall2_dash_middle l1 x l2 k :
  Forall2 admits (l1 ++ x :: l2) k → Forall2 admits (l1 ++ "-"%char :: l2) k.
Proof.
  rewrite !Forall2_app_inv_l. intros (k1 & k2 & H1 & H2 & ->).
  apply Forall2_cons_inv_l in H2 as (y & k' & _ & H2 & ->).
  exists k1, (y :: k'). split; [done|]. split; [|done].
  apply Forall2_cons. split; [by left | done].
Qed.

(** What either input subsumes, the combined term subsumes. *)
Lemma combine_subsumes t1 t2 c m :
  String.length t1 = String.length t2 →
  combine_terms t1 t2 = Some c →
  subsumes t1 m ∨ subsumes t2 m → subsumes c m.
Proof.
  intros Hlen Hc Hs. apply combine_terms_inv in Hc; [|done].
  destruct Hc as [[-> ->]|(l1 & x & y & l2 & _ & E1 & E2 & E3)];
    [by destruct Hs|].
  unfold subsumes in *. rewrite E1, E2 in Hs. rewrite E3.
  destruct Hs as [Hs|Hs]; by eapply Forall2_dash_middle.
Qed.

Lemma combine_ternary t1 t2 c :
  String.length t1 = String.length t2 →
  combine_terms t1 t2 = Some c → ternary t1 → ternary c.
Proof.
  intros Hlen Hc Ht. apply combine_terms_inv in Hc; [|done].
  destruct Hc as [[-> ->]|(l1 & x & y & l2 & _ & E1 & E2 & E3)]; [done|].
  unfold ternary in *. rewrite E1 in Ht. rewrite E3.
  apply Forall_app in Ht as [H1 [_ H2]%Forall_cons].
  apply Forall_app. split; [done|]. apply Forall_cons. auto.
Qed.

(** A minterm subsumed by the combination of a lower and a higher
    group's term is subsumed by one of the two. *)
Lemma combine_sound t1 t2 c m :
  String.length t1 = String.length t2 →
  count_ones t1 < count_ones t2 →
  ternary t1 →
  combine_terms t1 t2 = Some c →
  binary m → subsumes c m →
  subsumes t1 m ∨ subsumes t2 m.
Proof.
  intros Hlen Hlt Ht Hc Hb Hs. apply combine_terms_inv in Hc; [|done].
  destruct Hc as [[-> ->]|(l1 & x & y & l2 & _ & E1 & E2 & E3)]; [lia|].
  unfold count_ones, ternary, binary, subsumes in *.
  rewrite E1, E2, !ones_middle in Hlt. rewrite E1 in Ht.
  rewrite E3 in Hs. rewrite E1, E2.
  apply Forall2_app_inv_l in Hs as (k1 & k2 & H1 & H2 & Em).
  apply Forall2_cons_inv_l in H2 as (z & k' & _ & H2 & ->).
  rewrite Em in Hb |- *.
  apply Forall_app in Hb as [_ [Hz _]%Forall_cons].
  apply Forall_app in Ht as [_ [Hx _]%Forall_cons].
  assert (y = "1"%char ∧ x ≠ "1"%char) as [-> Hx1]
    by (repeat case_decide; split; (done || lia)).
  destruct Hz as [->| ->].
  - left. apply Forall2_app; [done|]. apply Forall2_cons.
    split; [|done]. unfold admits. destruct Hx as [?|[?|?]]; auto. done.
  - right. apply Forall2_app; [done|]. apply Forall2_cons.
    split; [by right | done].
Qed.
End subsumption.

(** * The round loop *)

Section loop.
Implicit Types st : state.

Lemma minimize_loop_done fuel st :
  groups st = ∅ → minimize_loop fuel st = Some (0, st).
Proof. intros E. destruct fuel; simpl; by rewrite decide_True. Qed.

Lemma minimize_loop_step fuel st :
  groups st ≠ ∅ →
  minimize_loop (S fuel) st
  = (λ r : nat * state, (S r.1, r.2)) <$> minimize_loop fuel (round st).
Proof. intros E. simpl. by rewrite decide_False. Qed.

(** A finished loop ran [round] as many times as it reports and stopped
    on an empty dict, not before. *)
Lemma minimize_loop_iter fuel st r st' :
  minimize_loop fuel st = Some (r, st') →
  st' = Nat.iter r round st ∧ groups st' = ∅ ∧
  ∀ i, i < r → groups (Nat.iter i round st) ≠ ∅.
Proof.
  revert st r. induction fuel as [|fuel IH]; intros st r; simpl.
  - case_decide; [|done]. intros [= <- <-]. repeat split; [done|]. lia.
  - case_decide as Hg.
    + intros [= <- <-]. repeat split; [done|]. lia.
    + destruct (minimize_loop fuel (round st)) as [[r' st'']|] eqn:E; [|done].
      simpl. intros [= <- <-]. apply IH in E as (-> & Hend & Hrun).
      rewrite Nat.iter_succ_r. repeat split; [done|].
      intros [|i] Hi; [done|]. rewrite Nat.iter_succ_r. apply Hrun. lia.
Qed.

(** Every key of the next dict is below another key of the current
    one, so a strict bound on the keys drops by one each round. *)
Lemma round_keys_bound st B k :
  (∀ k, k ∈ dom (groups st) → k < B) →
  k ∈ dom (groups (round st)) → S k < B.
Proof.
  intros HB Hk. apply dom_in_group in Hk as [c Hc]; [|apply round_no_empty].
  apply round_groups in Hc as (g2 & _ & _ & Hp & _).
  apply key_pairs_lt in Hp as (Hlt & _ & H2). apply HB in H2. lia.
Qed.

(** The loop is total: a bound [B] on the keys bounds the rounds, and
    any fuel from the round count on gives the same result. *)
Lemma minimize_loop_total B st :
  (∀ k, k ∈ dom (groups st) → k < B) →
  ∃ r st', r ≤ B ∧ ∀ fuel, r ≤ fuel → minimize_loop fuel st = Some (r, st').
Proof.
  revert st. induction B as [|B IH]; intros st HB.
  - exists 0, st. split; [done|]. intros fuel _. apply minimize_loop_done.
    apply map_empty. intros k. apply not_elem_of_dom. intros Hk%HB. lia.
  - destruct (decide (groups st = ∅)) as [E|E].
    { exists 0, st. split; [lia|]. intros fuel _.
      by apply minimize_loop_done. }
    destruct (IH (round st)) as (r & st' & Hr & Hrun).
    { intros k Hk. eapply round_keys_bound in Hk; [|done]. lia. }
    exists (S r), st'. split; [lia|]. intros [|fuel] Hf; [lia|].
    rewrite minimize_loop_step by done. rewrite Hrun by lia. done.
Qed.

(** More fuel does not change a result. *)
Lemma minimize_loop_mono fuel fuel' st x :
  minimize_loop fuel st = Some x → fuel ≤ fuel' →
  minimize_loop fuel' st = Some x.
Proof.
  revert fuel' st x. induction fuel as [|fuel IH]; intros fuel' st x.
  - simpl. case_decide; [|done]. intros [= <-] _.
    by apply minimize_loop_done.
  - destruct (decide (groups st = ∅)) as [E|E].
    { rewrite !minimize_loop_done by done. done. }
    rewrite minimize_loop_step by done. intros H Hf.
    destruct fuel' as [|fuel']; [lia|].
    rewrite minimize_loop_step by done.
    destruct (minimize_loop fuel (round st)) as [y|] eqn:Ey; [|done].
    rewrite (IH fuel' _ y) by (done || lia). done.
Qed.

Lemma minimize_mono fuel fuel' minterms res :
  minimize fuel minterms = Some res → fuel ≤ fuel' →
  minimize fuel' minterms = Some res.
Proof.
  unfold minimize, minimize_rounds. intros H Hf.
  destruct (minimize_loop fuel _) as [x|] eqn:E; [|done].
  by rewrite (minimize_loop_mono fuel fuel' _ x).
Qed.

Lemma iter_round_inv (P : state → Prop) st r :
  P st → (∀ s, P s → P (round s)) → P (Nat.iter r round st).
Proof. intros H0 Hstep. induction r as [|r IH]; simpl; auto. Qed.
End loop.

(** * The invariant of the reduction *)

Section reduction.
Variable minterms : list string.
Variable n : nat.
Hypothesis Hvalid : valid_input n minterms.

Lemma valid_elem m : m ∈ minterms → String.length m = n ∧ binary m.
Proof. intros Hm. unfold valid_input in Hvalid.
       rewrite Forall_forall in Hvalid. by apply Hvalid. Qed.

Lemma binary_ternary t : binary t → ternary t.
Proof.
  unfold binary, ternary. intros H. eapply Forall_impl; [done|].
  intros c [?|?]; auto.
Qed.

Lemma inv_init : inv minterms n (minimize_init minterms).
Proof.
  split; simpl.
  - apply no_empty_group_by_ones.
  - intros t. rewrite elem_of_list_to_set. split.
    + intros Ht. exists (count_ones t). by apply in_group_by_ones.
    + intros [k [Ht _]%in_group_by_ones]. done.
  - intros k t [Ht Hk]%in_group_by_ones. split; [done|].
    destruct (valid_elem t Ht) as [Hlen Hb].
    split; [done|]. split; [by apply binary_ternary|].
    intros m _ Hs. by rewrite (subsumes_binary_eq t m).
  - intros t []%elem_of_empty.
  - intros m Hm. exists m. split; [|apply subsumes_refl].
    right. by apply elem_of_list_to_set.
Qed.

Lemma inv_round st : inv minterms n st → inv minterms n (round st).
Proof.
  intros [Hne Hun Hgr Hch Hcov]. split.
  - apply round_no_empty.
  - apply round_unchecked.
  - intros k c (g2 & t1 & t2 & Hp & H1 & H2 & [Hc _])%round_groups.
    apply key_pairs_lt in Hp as (Hlt & _ & _).
    apply Hgr in H1 as (Hk1 & Hl1 & Ht1 & Hs1).
    apply Hgr in H2 as (Hk2 & Hl2 & Ht2 & Hs2).
    assert (String.length t1 = String.length t2) as Hlen by congruence.
    assert (count_ones t1 < count_ones t2) as Hcnt by lia.
    destruct (combine_terms_count_lower t1 t2 c) as [Hck Hcl]; [done..|].
    split; [congruence|]. split; [congruence|].
    split; [by apply (combine_ternary t1 t2)|].
    intros m Hb Hs.
    destruct (combine_sound t1 t2 c m) as [?|?]; auto.
  - intros t [Ht|[Ht _]]%round_checked; [by apply Hch|].
    apply Hun in Ht as [k Ht]. by apply Hgr in Ht as [_ ?].
  - intros m Hm. destruct (Hcov m Hm) as (t & [Ht|Ht] & Hs).
    { exists t. split; [|done]. left. apply round_checked. by left. }
    destruct (decide (t ∈ (combine_groups (groups st)).2)) as [Hu|Hu].
    + apply round_used in Hu
        as (g1 & g2 & t1 & t2 & c & Hp & H1 & H2 & Hc & Heq).
      exists c. split.
      * right. apply round_unchecked. exists g1. apply round_groups.
        by exists g2, t1, t2.
      * pose proof (Hgr _ _ H1) as (_ & Hl1 & _).
        pose proof (Hgr _ _ H2) as (_ & Hl2 & _).
        apply (combine_subsumes t1 t2); [congruence | apply Hc |].
        destruct Heq as [<-|<-]; auto.
    + exists t. split; [|done]. left. apply round_checked. right.
      split; [done|]. by rewrite <-round_used.
Qed.

(** No pair of terms that combine is left out by the pairing of
    neighbouring keys: the two keys are neighbours. *)
Lemma round_skips_nothing st k1 k2 t1 t2 c :
  inv minterms n st →
  in_group (groups st) k1 t1 → in_group (groups st) k2 t2 →
  k1 < k2 → combine_terms t1 t2 = Some c →
  (k1, k2) ∈ key_pairs (groups st).
Proof.
  intros Hinv H1 H2 Hlt Hc.
  pose proof (inv_group _ _ _ Hinv _ _ H1) as (Hk1 & Hl1 & _).
  pose proof (inv_group _ _ _ Hinv _ _ H2) as (Hk2 & Hl2 & _).
  apply combine_terms_count_close in Hc; [|congruence].
  assert (k2 = S k1) as -> by lia.
  apply Sorted_succ_adjacent.
  - apply (Sorted_merge_sort le).
  - unfold group_keys. rewrite merge_sort_Permutation.
    apply NoDup_fst_map_to_list.
  - apply elem_of_group_keys. by eapply in_group_dom.
  - apply elem_of_group_keys. by eapply in_group_dom.
Qed.

Lemma init_keys_bound k :
  k ∈ dom (groups (minimize_init minterms)) → k < n + 1.
Proof.
  intros [t Ht]%dom_in_group; [|apply inv_init].
  apply inv_init in Ht as (<- & <- & _).
  unfold count_ones. rewrite <-length_chars.
  pose proof (ones_le_length (chars t)). lia.
Qed.

(** The loop ends within [n + 1] rounds in a state that satisfies the
    invariant, with nothing left to combine. *)
Lemma minimize_loop_ends :
  ∃ r st', r ≤ n + 1 ∧
    (∀ fuel, r ≤ fuel →
             minimize_loop fuel (minimize_init minterms) = Some (r, st')) ∧
    inv minterms n st' ∧ groups st' = ∅ ∧ unchecked st' = ∅.
Proof.
  destruct (minimize_loop_total (n + 1) (minimize_init minterms))
    as (r & st' & Hr & Hrun); [apply init_keys_bound|].
  exists r, st'. split; [done|]. split; [done|].
  destruct (minimize_loop_iter r (minimize_init minterms) r st')
    as (-> & Hend & _); [by apply Hrun|].
  assert (inv minterms n (Nat.iter r round (minimize_init minterms))) as Hinv
    by (apply iter_round_inv; [apply inv_init | apply inv_round]).
  split; [done|]. split; [done|].
  apply set_eq. intros t. rewrite (inv_unchecked _ _ _ Hinv), Hend.
  split; [|by intros []%elem_of_empty].
  intros [k []%in_group_empty].
Qed.

(** [minimize] returns after at most [n + 1] rounds the set [checked]
    of a state that satisfies the invariant. *)
Lemma minimize_ends :
  ∃ r st', r ≤ n + 1 ∧
    (∀ fuel, r ≤ fuel →
             minimize_rounds fuel minterms = Some (r, ∅ ∪ checked st')) ∧
    inv minterms n st' ∧ unchecked st' = ∅.
Proof.
  destruct minimize_loop_ends as (r & st' & Hr & Hrun & Hinv & _ & Hun).
  exists r, st'. split; [done|]. split; [|done].
  intros fuel Hf. unfold minimize_rounds. by rewrite Hrun.
Qed.
End reduction.

(** * Independence of the input order *)

Section order.
Implicit Types d : gmap nat (list string).

Lemma groups_equiv_dom d1 d2 : groups_equiv d1 d2 → dom d1 = dom d2.
Proof.
  intros (H1 & H2 & Heq). apply set_eq. intros k. split.
  - intros [t Ht]%dom_in_group; [|done]. apply Heq in Ht.
    by eapply in_group_dom.
  - intros [t Ht]%dom_in_group; [|done]. apply Heq in Ht.
    by eapply in_group_dom.
Qed.

Lemma NoDup_group_keys d : NoDup (group_keys d).
Proof.
  unfold group_keys. rewrite merge_sort_Permutation.
  apply NoDup_fst_map_to_list.
Qed.

Lemma groups_equiv_keys d1 d2 :
  groups_equiv d1 d2 → group_keys d1 = group_keys d2.
Proof.
  intros Heq%groups_equiv_dom.
  apply (Sorted_unique le); [apply (Sorted_merge_sort le)..|].
  apply NoDup_Permutation; [apply NoDup_group_keys..|].
  intros k. by rewrite !elem_of_group_keys, Heq.
Qed.

Lemma groups_equiv_empty d1 d2 : groups_equiv d1 d2 → d1 = ∅ ↔ d2 = ∅.
Proof.
  intros Heq. pose proof (groups_equiv_dom _ _ Heq) as Hdom.
  rewrite <-!(dom_empty_iff_L (D:=gset nat)). by rewrite Hdom.
Qed.

Lemma state_equiv_round s1 s2 :
  state_equiv s1 s2 → state_equiv (round s1) (round s2).
Proof.
  intros (Hg & Hu & Hc).
  pose proof (groups_equiv_keys _ _ Hg) as Hkeys.
  destruct Hg as (_ & _ & Hg).
  assert (∀ k c, in_group (groups (round s1)) k c ↔
                 in_group (groups (round s2)) k c) as Hnext.
  { intros k c. rewrite !round_groups. unfold key_pairs. rewrite Hkeys.
    by setoid_rewrite Hg. }
  assert ((combine_groups (groups s1)).2 = (combine_groups (groups s2)).2)
    as Hused.
  { apply set_eq. intros t. rewrite !round_used. unfold used_in, key_pairs.
    rewrite Hkeys. by setoid_rewrite Hg. }
  split; [|split].
  - split; [apply round_no_empty|]. split; [apply round_no_empty | done].
  - apply set_eq. intros t. rewrite !round_unchecked.
    by setoid_rewrite Hnext.
  - rewrite !round_eq. simpl. by rewrite Hu, Hc, Hused.
Qed.

Lemma minimize_loop_equiv fuel s1 s2 :
  state_equiv s1 s2 →
  (λ r : nat * state, (r.1, ∅ ∪ checked r.2)) <$> minimize_loop fuel s1
  = (λ r : nat * state, (r.1, ∅ ∪ checked r.2)) <$> minimize_loop fuel s2.
Proof.
  revert s1 s2. induction fuel as [|fuel IH]; intros s1 s2 Heq;
    pose proof (groups_equiv_empty _ _ (proj1 Heq)) as He;
    pose proof (proj2 (proj2 Heq)) as Hc; simpl.
  - destruct (decide (groups s1 = ∅)) as [E|E].
    + rewrite decide_True by (by apply He). simpl. by rewrite Hc.
    + rewrite decide_False by (by rewrite <-He). done.
  - destruct (decide (groups s1 = ∅)) as [E|E].
    + rewrite decide_True by (by apply He). simpl. by rewrite Hc.
    + rewrite decide_False by (by rewrite <-He).
      specialize (IH _ _ (state_equiv_round _ _ Heq)).
      destruct (minimize_loop fuel (round s1)) as [[r1 t1]|],
               (minimize_loop fuel (round s2)) as [[r2 t2]|];
        simpl in *; try done.
      injection IH as -> E2. by rewrite E2.
Qed.

Lemma state_equiv_init ms1 ms2 :
  list_to_set ms1 =@{gset string} list_to_set ms2 →
  state_equiv (minimize_init ms1) (minimize_init ms2).
Proof.
  intros Hset. split; [|done].
  split; [apply no_empty_group_by_ones|].
  split; [apply no_empty_group_by_ones|].
  intros k t. simpl. rewrite !in_group_by_ones.
  rewrite <-!(elem_of_list_to_set (C:=gset string)), Hset. done.
Qed.
End order.

(** * Positions *)

Section positions.
Implicit Types la lb : list ascii.

Lemma lookup_middle_differ (l1 l2 : list ascii) x y i :
  (l1 ++ x :: l2) !! i ≠ (l1 ++ y :: l2) !! i → i = length l1.
Proof.
  intros Hne. destruct (decide (i = length l1)) as [|Hi]; [done|].
  exfalso. apply Hne. destruct (decide (i < length l1)).
  - by rewrite !lookup_app_l.
  - rewrite !lookup_app_r by lia.
    destruct (i - length l1) as [|j] eqn:E; [lia | done].
Qed.

(** Lists of one length that differ at [i] only. *)
Lemma differ_at_insert la lb i :
  length la = length lb →
  la !! i ≠ lb !! i →
  (∀ j, j ≠ i → la !! j = lb !! j) →
  ∃ x y, x ≠ y ∧ la !! i = Some x ∧ lb = <[i := y]> la.
Proof.
  intros Hlen Hi Hrest.
  destruct (la !! i) as [x|] eqn:Ex; last first.
  { apply lookup_ge_None in Ex. rewrite (lookup_ge_None_2 lb) in Hi; [done|lia]. }
  pose proof (lookup_lt_Some _ _ _ Ex) as Hlt.
  destruct (lb !! i) as [y|] eqn:Ey; last first.
  { apply lookup_ge_None in Ey. lia. }
  exists x, y. split; [congruence|]. split; [done|].
  apply list_eq. intros j. destruct (decide (j = i)) as [->|Hj].
  - by rewrite list_lookup_insert_eq.
  - rewrite list_lookup_insert_ne by done. symmetry. by apply Hrest.
Qed.

Lemma combine_loop_differ_at la lb i :
  length la = length lb →
  la !! i ≠ lb !! i →
  (∀ j, j ≠ i → la !! j = lb !! j) →
  combine_loop (zip la lb) [] false = Some (<[i := "-"%char]> la).
Proof.
  intros Hlen Hi Hrest.
  destruct (differ_at_insert la lb i) as (x & y & Hxy & Ex & ->); [done..|].
  pose proof (lookup_lt_Some _ _ _ Ex) as Hlt.
  rewrite !insert_take_drop by done.
  rewrite <-(take_drop_middle la i x) at 1 by done.
  by rewrite combine_loop_one.
Qed.

(** Two or more differing positions: no combination. *)
Lemma combine_terms_two_differences (a b : string) i j :
  String.length a = String.length b →
  i ≠ j →
  chars a !! i ≠ chars b !! i →
  chars a !! j ≠ chars b !! j →
  combine_terms a b = None.
Proof.
  intros Hlen Hij Hi Hj. destruct (combine_terms a b) as [c|] eqn:E; [|done].
  apply combine_terms_inv in E; [|done].
  destruct E as [[-> _]|(l1 & x & y & l2 & _ & E1 & E2 & _)]; [done|].
  rewrite E1, E2 in Hi, Hj.
  apply lookup_middle_differ in Hi, Hj. congruence.
Qed.

Lemma zip_take_min {A B} (l : list A) (k : list B) :
  zip l k
  = zip (take (length l `min` length k) l) (take (length l `min` length k) k).
Proof.
  revert k. induction l as [|x l IH]; intros [|y k]; simpl; try done.
  by rewrite <-IH.
Qed.

Lemma chars_str_take k t : chars (str_take k t) = take k (chars t).
Proof. apply chars_of_list. Qed.
End positions.

(** * The term combiner *)

(** C3: two terms of equal length that differ at position [i] and nowhere
    else combine to the first term with position [i] replaced by ['-'];
    the result has the length of the inputs and agrees with both of them
    at every other position. *)
Theorem combine_terms_single_difference (a b : string) (i : nat) :
  String.length a = String.length b →
  chars a !! i ≠ chars b !! i →
  (∀ j, j ≠ i → chars a !! j = chars b !! j) →
  combine_terms a b = Some (replace_at i "-" a) ∧
  String.length (replace_at i "-" a) = String.length a ∧
  ∀ j, j ≠ i →
       chars (replace_at i "-" a) !! j = chars a !! j ∧
       chars (replace_at i "-" a) !! j = chars b !! j.
Proof.
  intros Hlen Hi Hrest. split; [|split].
  - unfold combine_terms, replace_at.
    rewrite (combine_loop_differ_at _ _ i); [done| |done..].
    by rewrite !length_chars.
  - unfold replace_at. by rewrite <-!length_chars, chars_of_list, length_insert.
  - intros j Hj. unfold replace_at.
    rewrite chars_of_list, list_lookup_insert_ne by done.
    split; [done | by apply Hrest].
Qed.

Lemma combine_terms_single_difference_witness :
  combine_terms "0001" "0011" = Some "00-1" ∧
  String.length (replace_at 2 "-" "0001") = 4 ∧
  ∀ j, j ≠ 2 →
       chars (replace_at 2 "-" "0001") !! j = chars "0001" !! j ∧
       chars (replace_at 2 "-" "0001") !! j = chars "0011" !! j.
Proof.
  apply (combine_terms_single_difference "0001" "0011" 2).
  - reflexivity.
  - simpl. discriminate.
  - intros [|[|[|[|j]]]] Hj; simpl; (reflexivity || lia).
Defined.

(** C4: on two identical terms, which differ in zero positions,
    [combine_terms] does not return [None]: it returns the term. *)
Theorem combine_terms_identical_not_none :
  combine_terms "0101" "0101" = Some "0101".
Proof. reflexivity. Qed.

(** C5, the claim as stated fails: called with terms of lengths 2 and 1,
    [combine_terms] returns a combined term. *)
Lemma combine_terms_unequal_length_result :
  String.length "01" ≠ String.length "1" ∧
  combine_terms "01" "1" = Some "-".
Proof. split; [discriminate | reflexivity]. Qed.

(** C5, amended: whatever the lengths of the two terms, [combine_terms]
    returns what it returns on the two terms cut to the shorter length;
    positions past the shorter term are never examined. *)
Theorem combine_terms_truncates (a b : string) :
  combine_terms a b
  = combine_terms (str_take (String.length a `min` String.length b) a)
                  (str_take (String.length a `min` String.length b) b).
Proof.
  unfold combine_terms. rewrite !chars_str_take, <-!length_chars.
  by rewrite <-zip_take_min.
Qed.

(** C9, the claim as stated fails: no two terms of equal length whose
    population counts are two or more apart combine. *)
Lemma no_combination_two_counts_apart :
  ¬ ∃ a b : string,
      String.length a = String.length b ∧ ternary a ∧ ternary b ∧
      (count_ones a + 2 ≤ count_ones b ∨ count_ones b + 2 ≤ count_ones a) ∧
      combine_terms a b ≠ None.
Proof.
  intros (a & b & Hlen & _ & _ & Hcnt & Hc).
  destruct (combine_terms a b) as [c|] eqn:E; [|done].
  apply combine_terms_count_close in E; [|done]. lia.
Qed.

(** C9, amended: whenever two terms of equal length combine, their
    population counts differ by at most one. *)
Theorem combine_terms_counts_adjacent (a b c : string) :
  String.length a = String.length b →
  combine_terms a b = Some c →
  count_ones a ≤ count_ones b + 1 ∧ count_ones b ≤ count_ones a + 1.
Proof. apply combine_terms_count_close. Qed.

Lemma combine_terms_counts_adjacent_witness :
  count_ones "0001" ≤ count_ones "0011" + 1 ∧
  count_ones "0011" ≤ count_ones "0001" + 1.
Proof.
  apply (combine_terms_counts_adjacent "0001" "0011" "00-1"); reflexivity.
Defined.

(** * The reducer *)

(** C1: on minterms over ['0'] and ['1'] of one length [n], [minimize]
    returns a set in which every input minterm is subsumed by some term. *)
Theorem minimize_covers_input (minterms : list string) (n : nat) :
  valid_input n minterms →
  ∃ res, (∀ fuel, n < fuel → minimize fuel minterms = Some res) ∧
         ∀ m, m ∈ minterms → ∃ t, t ∈ res ∧ subsumes t m.
Proof.
  intros Hvalid.
  destruct (minimize_ends minterms n Hvalid) as (r & st & Hr & Hrun & Hinv & Hun).
  exists (∅ ∪ checked st). split.
  - intros fuel Hf. unfold minimize. rewrite Hrun by lia. done.
  - intros m Hm. destruct (inv_cover _ _ _ Hinv m Hm) as (t & Ht & Hs).
    exists t. split; [|done]. rewrite Hun in Ht. set_solver.
Qed.

Lemma minimize_covers_input_witness :
  ∃ res, (∀ fuel, 4 < fuel →
                  minimize fuel ["0001"; "0011"; "0111"] = Some res) ∧
         ∀ m, m ∈ ["0001"; "0011"; "0111"] → ∃ t, t ∈ res ∧ subsumes t m.
Proof.
  apply (minimize_covers_input ["0001"; "0011"; "0111"] 4).
  apply (bool_decide_unpack _). vm_compute. exact I.
Defined.

(** C2: on the minterms 0001, 0011 and 0111, [minimize] returns exactly
    the set of 00-1 and 0-11; two rounds of fuel are enough. *)
Theorem minimize_scenario (fuel : nat) :
  2 ≤ fuel →
  minimize fuel ["0001"; "0011"; "0111"] = Some {[ "00-1"; "0-11" ]}.
Proof.
  apply minimize_mono.
  apply (bool_decide_unpack _). vm_compute. exact I.
Qed.

Lemma minimize_scenario_witness :
  minimize 5 ["0001"; "0011"; "0111"] = Some {[ "00-1"; "0-11" ]}.
Proof. apply (minimize_scenario 5). lia. Defined.

(** C6: on minterms over ['0'] and ['1'] of one length, at the start of
    every round, that is after any number [r] of rounds, the dict [groups]
    holds under key [k] exactly the terms of the current generation whose
    population count is [k]. *)
Theorem round_keys_are_population_counts
    (minterms : list string) (n r k : nat) (t : string) :
  valid_input n minterms →
  in_group (groups (Nat.iter r round (minimize_init minterms))) k t ↔
  t ∈ unchecked (Nat.iter r round (minimize_init minterms)) ∧
  count_ones t = k.
Proof.
  intros Hvalid.
  assert (inv minterms n (Nat.iter r round (minimize_init minterms))) as Hinv
    by (apply iter_round_inv; [by apply inv_init | by apply inv_round]).
  split.
  - intros Ht. split; [|by apply (inv_group _ _ _ Hinv)].
    apply (inv_unchecked _ _ _ Hinv). by exists k.
  - intros [[k' Ht]%(inv_unchecked _ _ _ Hinv) <-].
    by pose proof (inv_group _ _ _ Hinv _ _ Ht) as [-> _].
Qed.

Lemma round_keys_are_population_counts_witness :
  in_group (groups (Nat.iter 1 round
                      (minimize_init ["0001"; "0011"; "0111"]))) 2 "0-11" ↔
  "0-11" ∈ unchecked (Nat.iter 1 round
                        (minimize_init ["0001"; "0011"; "0111"])) ∧
  count_ones "0-11" = 2.
Proof.
  apply (round_keys_are_population_counts ["0001"; "0011"; "0111"] 4 1 2).
  apply (bool_decide_unpack _). vm_compute. exact I.
Defined.

(** C7: on minterms over ['0'] and ['1'] of length [n], the round loop of
    [minimize] terminates after at most [n + 1] rounds. *)
Theorem minimize_round_bound (minterms : list string) (n : nat) :
  valid_input n minterms →
  ∃ r res, r ≤ n + 1 ∧
           ∀ fuel, r ≤ fuel → minimize_rounds fuel minterms = Some (r, res).
Proof.
  intros Hvalid.
  destruct (minimize_ends minterms n Hvalid) as (r & st & Hr & Hrun & _).
  by exists r, (∅ ∪ checked st).
Qed.

Lemma minimize_round_bound_witness :
  ∃ r res, r ≤ 1 + 1 ∧
           ∀ fuel, r ≤ fuel → minimize_rounds fuel ["0"; "1"] = Some (r, res).
Proof.
  apply (minimize_round_bound ["0"; "1"] 1).
  apply (bool_decide_unpack _). vm_compute. exact I.
Defined.

(** C8: two input sequences that hold the same set of minterms of one
    length, in any order and with any repetitions, give the same set. *)
Theorem minimize_order_independent (ms1 ms2 : list string) (n : nat) :
  valid_input n ms1 →
  list_to_set ms1 =@{gset string} list_to_set ms2 →
  ∃ res, ∀ fuel, n < fuel →
                 minimize fuel ms1 = Some res ∧ minimize fuel ms2 = Some res.
Proof.
  intros Hvalid Hset.
  destruct (minimize_ends ms1 n Hvalid) as (r & st & Hr & Hrun & _).
  exists (∅ ∪ checked st). intros fuel Hf.
  assert (minimize_rounds fuel ms1 = minimize_rounds fuel ms2) as E
    by (by apply minimize_loop_equiv, state_equiv_init).
  unfold minimize. rewrite <-E, Hrun by lia. done.
Qed.

Lemma minimize_order_independent_witness :
  ∃ res, ∀ fuel, 4 < fuel →
    minimize fuel ["0001"; "0011"; "0111"] = Some res ∧
    minimize fuel ["0111"; "0011"; "0001"; "0011"] = Some res.
Proof.
  apply (minimize_order_independent
           ["0001"; "0011"; "0111"] ["0111"; "0011"; "0001"; "0011"] 4).
  - apply (bool_decide_unpack _). vm_compute. exact I.
  - vm_compute. reflexivity.
Defined.

(** C10: on minterms over ['0'] and ['1'] of one length, every string over
    ['0'] and ['1'] that a returned term subsumes is an input minterm. *)
Theorem minimize_sound (minterms : list string) (n : nat) :
  valid_input n minterms →
  ∃ res, (∀ fuel, n < fuel → minimize fuel minterms = Some res) ∧
         ∀ t m, t ∈ res → binary m → subsumes t m → m ∈ minterms.
Proof.
  intros Hvalid.
  destruct (minimize_ends minterms n Hvalid) as (r & st & Hr & Hrun & Hinv & _).
  exists (∅ ∪ checked st). split.
  - intros fuel Hf. unfold minimize. rewrite Hrun by lia. done.
  - intros t m Ht Hb Hs.
    assert (t ∈ checked st) as Hc by set_solver.
    by apply (inv_checked _ _ _ Hinv) in Hc as (_ & _ & Hsound); apply Hsound.
Qed.

Lemma minimize_sound_witness :
  ∃ res, (∀ fuel, 4 < fuel → minimize fuel ["1010"; "1011"] = Some res) ∧
         ∀ t m, t ∈ res → binary m → subsumes t m → m ∈ ["1010"; "1011"].
Proof.
  apply (minimize_sound ["1010"; "1011"] 4).
  apply (bool_decide_unpack _). vm_compute. exact I.
Defined.

(** * Further properties of the term combiner *)

Section combiner_more.
Implicit Types a b l : list ascii.

Lemma combine_loop_sym a b acc found :
  combine_loop (zip a b) acc found = combine_loop (zip b a) acc found.
Proof.
  revert b acc found. induction a as [|x a IH]; intros [|y b] acc found;
    simpl; try done.
  destruct (decide (x = y)) as [->|Hxy].
  - rewrite decide_True by done. apply IH.
  - rewrite decide_False by congruence. destruct found; simpl; [done|apply IH].
Qed.

Lemma combine_loop_length ps acc found c :
  combine_loop ps acc found = Some c → length c = length acc + length ps.
Proof.
  revert acc found. induction ps as [|[x y] ps IH]; intros acc found; simpl.
  - intros [= <-]. lia.
  - destruct (decide (x = y)); [|destruct found; simpl; [done|]];
      intros H%IH; rewrite H, length_app; simpl; lia.
Qed.

Lemma combine_loop_none_found a b acc :
  length a = length b →
  combine_loop (zip a b) acc true = None → ∃ i, a !! i ≠ b !! i.
Proof.
  revert b acc. induction a as [|x a IH]; intros [|y b] acc Hlen; simpl;
    try done.
  destruct (decide (x = y)) as [->|Hxy].
  - intros H. apply IH in H as [i Hi]; [|by simplify_eq/=]. by exists (S i).
  - intros _. exists 0. simpl. congruence.
Qed.

Lemma combine_loop_none a b acc :
  length a = length b →
  combine_loop (zip a b) acc false = None →
  ∃ i j, i ≠ j ∧ a !! i ≠ b !! i ∧ a !! j ≠ b !! j.
Proof.
  revert b acc. induction a as [|x a IH]; intros [|y b] acc Hlen; simpl;
    try done.
  destruct (decide (x = y)) as [->|Hxy]; simpl.
  - intros H. apply IH in H as (i & j & ? & ? & ?); [|by simplify_eq/=].
    exists (S i), (S j). split; [lia | done].
  - intros H. apply combine_loop_none_found in H as [j Hj];
      [|by simplify_eq/=].
    exists 0, (S j). split; [lia|]. split; [simpl; congruence | done].
Qed.

Lemma combine_terms_symmetric_aux (t1 t2 : string) :
  combine_terms t1 t2 = combine_terms t2 t1.
Proof. unfold combine_terms. by rewrite combine_loop_sym. Qed.
End combiner_more.

(** X1: [combine_terms] does not depend on the order of its two
    arguments, whatever their lengths. *)
Theorem combine_terms_symmetric (a b : string) :
  combine_terms a b = combine_terms b a.
Proof. apply combine_terms_symmetric_aux. Qed.

(** X2: a combined term is as long as the shorter of the two inputs. *)
Theorem combine_terms_length (a b c : string) :
  combine_terms a b = Some c →
  String.length c = String.length a `min` String.length b.
Proof.
  unfold combine_terms.
  destruct (combine_loop _ _ _) as [r|] eqn:E; [|done]. intros [= <-].
  apply combine_loop_length in E.
  rewrite <-!length_chars, chars_of_list, E, length_zip. done.
Qed.

Lemma combine_terms_length_witness :
  String.length "0" = String.length "01" `min` String.length "0".
Proof. apply (combine_terms_length "01" "0" "0"). reflexivity. Defined.

(** X3: on terms of equal length, [combine_terms] returns [None] exactly
    when the terms differ in two positions at least. *)
Theorem combine_terms_none_iff (a b : string) :
  String.length a = String.length b →
  combine_terms a b = None ↔
  ∃ i j, i ≠ j ∧ chars a !! i ≠ chars b !! i ∧ chars a !! j ≠ chars b !! j.
Proof.
  intros Hlen. split.
  - unfold combine_terms.
    destruct (combine_loop _ _ _) as [r|] eqn:E; [done|]. intros _.
    apply combine_loop_none in E; [done|]. by rewrite !length_chars.
  - intros (i & j & Hij & Hi & Hj).
    by apply (combine_terms_two_differences a b i j).
Qed.

Lemma combine_terms_none_iff_witness :
  combine_terms "0001" "0111" = None ↔
  ∃ i j, i ≠ j ∧ chars "0001" !! i ≠ chars "0111" !! i ∧
         chars "0001" !! j ≠ chars "0111" !! j.
Proof. apply (combine_terms_none_iff "0001" "0111"). reflexivity. Defined.

(** X4: the combination of two terms of equal length subsumes both. *)
Theorem combine_terms_generalises (a b c : string) :
  String.length a = String.length b →
  combine_terms a b = Some c →
  subsumes c a ∧ subsumes c b.
Proof.
  intros Hlen Hc. split; apply (combine_subsumes a b); try done.
  - left. apply subsumes_refl.
  - right. apply subsumes_refl.
Qed.

Lemma combine_terms_generalises_witness :
  subsumes "00-1" "0001" ∧ subsumes "00-1" "0011".
Proof.
  apply (combine_terms_generalises "0001" "0011" "00-1"); reflexivity.
Defined.

(** X5: when the population count goes up from [a] to [b], as it does
    for every pair the reducer tries, the combination of the two subsumes
    a minterm exactly when [a] or [b] does. *)
Theorem combine_terms_exact_cover (a b c m : string) :
  String.length a = String.length b →
  count_ones a < count_ones b →
  ternary a →
  combine_terms a b = Some c →
  binary m →
  subsumes c m ↔ subsumes a m ∨ subsumes b m.
Proof.
  intros Hlen Hlt Ha Hc Hm. split.
  - by apply (combine_sound a b).
  - by apply (combine_subsumes a b).
Qed.

Lemma combine_terms_exact_cover_witness :
  subsumes "00-1" "0011" ↔ subsumes "0001" "0011" ∨ subsumes "0011" "0011".
Proof.
  apply (combine_terms_exact_cover "0001" "0011" "00-1" "0011");
    try reflexivity.
  - vm_compute. lia.
  - apply (bool_decide_unpack _). vm_compute. exact I.
  - apply (bool_decide_unpack _). vm_compute. exact I.
Defined.

(** * Further properties of the grouping and of the loop *)

Section loop_more.
Implicit Types st : state.

Lemma dom_group_by_ones (ms : list string) :
  dom (group_by_ones ms) =@{gset nat} list_to_set (count_ones <$> ms).
Proof.
  apply set_eq. intros k. rewrite elem_of_list_to_set, list_elem_of_fmap.
  split.
  - intros [t Ht]%dom_in_group; [|apply no_empty_group_by_ones].
    apply in_group_by_ones in Ht as [Ht <-]. by exists t.
  - intros (t & -> & Ht). apply (in_group_dom _ _ t).
    by apply in_group_by_ones.
Qed.

(** A round drops the largest key at least. *)
Lemma round_size st :
  groups st ≠ ∅ →
  size (dom (groups (round st))) < size (dom (groups st)).
Proof.
  intros Hne. apply subset_size. split.
  - intros k [c Hc]%dom_in_group; [|apply round_no_empty].
    apply round_groups in Hc as (g2 & _ & _ & Hp & _).
    by apply key_pairs_lt in Hp as (_ & ? & _).
  - set (ks := elements (dom (groups st))).
    assert (ks ≠ []) as Hks.
    { unfold ks. intros E%elements_empty_inv. apply Hne.
      by apply (dom_empty_iff_L (D:=gset nat)), leibniz_equiv. }
    pose proof (max_list_elem_of ks Hks) as Hmax.
    intros Hsub. apply elem_of_elements, Hsub in Hmax.
    apply dom_in_group in Hmax as [c Hc]; [|apply round_no_empty].
    apply round_groups in Hc as (g2 & _ & _ & Hp & _).
    apply key_pairs_lt in Hp as (Hlt & _ & H2).
    apply elem_of_elements, max_list_elem_of_le in H2. fold ks in H2. lia.
Qed.

Lemma minimize_loop_total_size N st :
  size (dom (groups st)) ≤ N →
  ∃ r st', r ≤ N ∧ ∀ fuel, r ≤ fuel → minimize_loop fuel st = Some (r, st').
Proof.
  revert st. induction N as [|N IH]; intros st HN.
  - exists 0, st. split; [done|]. intros fuel _. apply minimize_loop_done.
    apply (dom_empty_iff_L (D:=gset nat)), leibniz_equiv, size_empty_iff.
    lia.
  - destruct (decide (groups st = ∅)) as [E|E].
    { exists 0, st. split; [lia|]. intros fuel _.
      by apply minimize_loop_done. }
    destruct (IH (round st)) as (r & st' & Hr & Hrun).
    { pose proof (round_size st E). lia. }
    exists (S r), st'. split; [lia|]. intros [|fuel] Hf; [lia|].
    rewrite minimize_loop_step by done. rewrite Hrun by lia. done.
Qed.

(** When no pair of a lower and a higher group combines, the round
    leaves no group and moves the whole generation to [checked]. *)
Lemma round_nothing_combines st :
  (∀ k1 k2 t1 t2 c, in_group (groups st) k1 t1 → in_group (groups st) k2 t2 →
                    k1 < k2 → ¬ combines t1 t2 c) →
  groups (round st) = ∅ ∧ checked (round st) = checked st ∪ unchecked st.
Proof.
  intros Hno. split.
  - apply no_in_group_empty; [apply round_no_empty|].
    intros k c (g2 & t1 & t2 & Hp & H1 & H2 & Hc)%round_groups.
    apply key_pairs_lt in Hp as (Hlt & _).
    exact (Hno _ _ _ _ _ H1 H2 Hlt Hc).
  - apply set_eq. intros t. rewrite round_checked, elem_of_union.
    split; [naive_solver|]. intros [?|Ht]; [by left|]. right.
    split; [done|].
    intros (g1 & g2 & t1 & t2 & c & Hp & H1 & H2 & Hc & _).
    apply key_pairs_lt in Hp as (Hlt & _).
    exact (Hno _ _ _ _ _ H1 H2 Hlt Hc).
Qed.
End loop_more.

(** X6: [group_by_ones] stores under key [k] the input terms whose
    population count is [k], in input order and with their repetitions;
    a count no term has is not a key. *)
Theorem group_by_ones_lookup (terms : list string) (k : nat) :
  group_by_ones terms !! k
  = let ts := filter (λ t, count_ones t = k) terms in
    if decide (ts = []) then None else Some ts.
Proof.
  induction terms as [|t terms IH] using rev_ind; [done|].
  rewrite group_by_ones_snoc, filter_app. unfold setdefault_append.
  simpl in *. destruct (decide (count_ones t = k)) as [<-|Hk].
  - rewrite lookup_insert_eq, IH, filter_cons_True by done.
    rewrite filter_nil.
    destruct (decide (filter _ terms ++ [t] = [])) as [E|_];
      [by apply app_eq_nil in E as [_ ?]|].
    by destruct (decide (filter _ terms = [])) as [->|_].
  - rewrite lookup_insert_ne, IH, filter_cons_False, app_nil_r by done. done.
Qed.

(** X7: [minimize] terminates on every input, of equal lengths or not,
    after at most as many rounds as the input terms have distinct
    population counts. *)
Theorem minimize_terminates (minterms : list string) :
  ∃ r res,
    r ≤ size (list_to_set (count_ones <$> minterms) : gset nat) ∧
    ∀ fuel, r ≤ fuel → minimize_rounds fuel minterms = Some (r, res).
Proof.
  destruct (minimize_loop_total_size
              (size (list_to_set (count_ones <$> minterms) : gset nat))
              (minimize_init minterms)) as (r & st & Hr & Hrun).
  { simpl. by rewrite dom_group_by_ones. }
  exists r, (∅ ∪ checked st). split; [done|].
  intros fuel Hf. unfold minimize_rounds. by rewrite Hrun.
Qed.

(** X8: when no input term of lower population count passes the test
    [if combined:] with one of higher count, [minimize] returns the set
    of the input terms; this covers the empty input and a single term. *)
Theorem minimize_nothing_combines (minterms : list string) (fuel : nat) :
  Forall (λ t1, Forall (λ t2, count_ones t1 < count_ones t2 →
                              truthy (combine_terms t1 t2) = false)
                       minterms) minterms →
  1 ≤ fuel →
  minimize fuel minterms = Some (list_to_set minterms).
Proof.
  intros Hno Hf. unfold minimize, minimize_rounds.
  destruct (decide (groups (minimize_init minterms) = ∅)) as [E|E].
  - rewrite minimize_loop_done by done. simpl. f_equal.
    apply set_eq. intros t. rewrite elem_of_union, elem_of_list_to_set.
    split; [by intros [[]%elem_of_empty|[]%elem_of_empty]|].
    intros Ht. exfalso.
    assert (in_group (groups (minimize_init minterms)) (count_ones t) t) as Hg
      by (by apply in_group_by_ones).
    rewrite E in Hg. by apply in_group_empty in Hg.
  - destruct fuel as [|fuel]; [lia|]. rewrite minimize_loop_step by done.
    destruct (round_nothing_combines (minimize_init minterms)) as [Hg Hc].
    { simpl. intros k1 k2 t1 t2 c [H1 <-]%in_group_by_ones
        [H2 <-]%in_group_by_ones Hlt Hcomb.
      rewrite Forall_forall in Hno. specialize (Hno t1 H1).
      rewrite Forall_forall in Hno. specialize (Hno t2 H2 Hlt).
      assert (truthy (combine_terms t1 t2) = true)
        by (apply truthy_combines; eauto). congruence. }
    rewrite minimize_loop_done by done. simpl. rewrite Hc. simpl.
    f_equal. set_solver.
Qed.

Lemma minimize_nothing_combines_witness :
  minimize 1 ["0000"; "0011"; "1111"]
  = Some (list_to_set ["0000"; "0011"; "1111"]).
Proof.
  apply (minimize_nothing_combines ["0000"; "0011"; "1111"] 1).
  - apply (bool_decide_unpack _). vm_compute. exact I.
  - lia.
Defined.

(** X9: on minterms over ['0'] and ['1'] of length [n], every returned
    term has length [n] and holds only ['0'], ['1'] and ['-']. *)
Theorem minimize_result_well_formed (minterms : list string) (n : nat) :
  valid_input n minterms →
  ∃ res, (∀ fuel, n < fuel → minimize fuel minterms = Some res) ∧
         ∀ t, t ∈ res → String.length t = n ∧ ternary t.
Proof.
  intros Hvalid.
  destruct (minimize_ends minterms n Hvalid) as (r & st & Hr & Hrun & Hinv & _).
  exists (∅ ∪ checked st). split.
  - intros fuel Hf. unfold minimize. rewrite Hrun by lia. done.
  - intros t Ht. assert (t ∈ checked st) as Hc by set_solver.
    by apply (inv_checked _ _ _ Hinv) in Hc as (? & ? & _).
Qed.

Lemma minimize_result_well_formed_witness :
  ∃ res, (∀ fuel, 4 < fuel → minimize fuel ["1010"; "1011"] = Some res) ∧
         ∀ t, t ∈ res → String.length t = 4 ∧ ternary t.
Proof.
  apply (minimize_result_well_formed ["1010"; "1011"] 4).
  apply (bool_decide_unpack _). vm_compute. exact I.
Defined.

(** * The result is the set of prime implicants *)

Section primes.
Variable minterms : list string.
Variable n : nat.
Hypothesis Hvalid : valid_input n minterms.

Implicit Types l : list ascii.
Implicit Types t : string.

Lemma dashes_middle l1 x l2 :
  dashes (l1 ++ x :: l2)
  = dashes l1 + (if decide (x = "-"%char) then 1 else 0) + dashes l2.
Proof.
  unfold dashes. rewrite filter_app, filter_cons, length_app.
  case_decide; simpl; lia.
Qed.

Lemma dashes_split l : 0 < dashes l → ∃ l1 l2, l = l1 ++ "-"%char :: l2.
Proof.
  unfold dashes. intros Hpos.
  destruct (filter _ l) as [|x f] eqn:E; [simpl in Hpos; lia|].
  assert (x ∈ filter (λ c, c = "-"%char) l) as Hx
    by (rewrite E; apply list_elem_of_here).
  apply list_elem_of_filter in Hx as [-> Hx].
  by apply list_elem_of_split in Hx.
Qed.

Lemma binary_dashes t : binary t → count_dashes t = 0.
Proof.
  unfold binary, count_dashes, dashes. intros Hb.
  induction Hb as [|x l Hx _ IH]; [done|].
  rewrite filter_cons_False; [done|]. by destruct Hx as [->| ->].
Qed.

Lemma ternary_no_dashes t : ternary t → count_dashes t = 0 → binary t.
Proof.
  unfold binary, ternary, count_dashes, dashes. intros Ht.
  induction Ht as [|x l Hx _ IH]; [constructor|].
  rewrite filter_cons. case_decide as Hd; [done|]. intros H0.
  constructor; [|by apply IH]. by destruct Hx as [?|[?|?]]; auto.
Qed.

Lemma insert_middle l1 (x y : ascii) l2 :
  <[length l1 := y]> (l1 ++ x :: l2) = l1 ++ y :: l2.
Proof. induction l1 as [|z l1 IH]; simpl; [done | by rewrite IH]. Qed.

Lemma str_chars l t : chars t = l → t = string_of_list_ascii l.
Proof. intros <-. symmetry. apply string_of_list_ascii_of_string. Qed.

(** The term whose symbols are [l1 ++ x :: l2] is an implicant when the
    one with ['-'] for [x] is. *)
Lemma good_narrow l1 x l2 :
  x = "0"%char ∨ x = "1"%char →
  good_term minterms n (string_of_list_ascii (l1 ++ "-"%char :: l2)) →
  good_term minterms n (string_of_list_ascii (l1 ++ x :: l2)).
Proof.
  intros Hx (Hlen & Ht & Hs). split; [|split].
  - rewrite <-Hlen, <-!length_chars, !chars_of_list, !length_app. done.
  - unfold ternary in *. rewrite chars_of_list in Ht |- *.
    apply Forall_app in Ht as [H1 [_ H2]%Forall_cons].
    apply Forall_app. split; [done|]. apply Forall_cons.
    split; [|done]. destruct Hx; auto.
  - intros m Hb Hm. apply Hs; [done|]. unfold subsumes in *.
    rewrite chars_of_list in Hm |- *. by eapply Forall2_dash_middle.
Qed.

(** The two terms an implicant with a ['-'] comes from are in the
    generation before it, under neighbouring keys, and combine to it. *)
Lemma siblings st r l1 l2 :
  inv minterms n st → exact minterms n r st →
  good_term minterms n (string_of_list_ascii (l1 ++ "-"%char :: l2)) →
  dashes (l1 ++ "-"%char :: l2) = S r →
  ∃ k, (k, S k) ∈ key_pairs (groups st) ∧
       in_group (groups st) k (string_of_list_ascii (l1 ++ "0"%char :: l2)) ∧
       in_group (groups st) (S k)
                (string_of_list_ascii (l1 ++ "1"%char :: l2)) ∧
       combines (string_of_list_ascii (l1 ++ "0"%char :: l2))
                (string_of_list_ascii (l1 ++ "1"%char :: l2))
                (string_of_list_ascii (l1 ++ "-"%char :: l2)).
Proof.
  intros Hinv Hex Hgood Hd.
  set (t0 := string_of_list_ascii (l1 ++ "0"%char :: l2)).
  set (t1 := string_of_list_ascii (l1 ++ "1"%char :: l2)).
  rewrite dashes_middle, decide_True in Hd by done.
  assert (∀ x, (x = "0"%char ∨ x = "1"%char) →
               ∃ k, in_group (groups st) k
                      (string_of_list_ascii (l1 ++ x :: l2)) ∧
                    k = ones l1 + (if decide (x = "1"%char) then 1 else 0)
                        + ones l2) as Hin.
  { intros x Hx.
    assert (string_of_list_ascii (l1 ++ x :: l2) ∈ unchecked st) as Hu.
    { apply (exact_unchecked _ _ _ _ Hex). split; [by apply good_narrow|].
      unfold count_dashes. rewrite chars_of_list, dashes_middle.
      rewrite decide_False by (by destruct Hx as [->| ->]). lia. }
    apply (inv_unchecked _ _ _ Hinv) in Hu as [k Hk]. exists k.
    split; [done|]. pose proof (inv_group _ _ _ Hinv _ _ Hk) as [<- _].
    unfold count_ones. by rewrite chars_of_list, ones_middle. }
  destruct (Hin "0"%char) as (k0 & H0 & E0); [by left|].
  destruct (Hin "1"%char) as (k1 & H1 & E1); [by right|].
  rewrite decide_False in E0 by done. rewrite decide_True in E1 by done.
  assert (k1 = S k0) as -> by lia. exists k0.
  assert (combine_terms t0 t1
          = Some (string_of_list_ascii (l1 ++ "-"%char :: l2))) as Hc.
  { unfold combine_terms, t0, t1. rewrite !chars_of_list.
    by rewrite combine_loop_one. }
  split; [|split; [done|split; [done|]]].
  - eapply (round_skips_nothing minterms n st k0 (S k0) t0 t1);
      [done|done|done|lia|done].
  - split; [done|]. intros E%(f_equal chars).
    rewrite chars_of_list in E. simpl in E. by destruct l1.
Qed.

(** The shape of a combination inside a round. *)
Lemma round_combination st r g1 g2 t1 t2 c :
  inv minterms n st → exact minterms n r st →
  (g1, g2) ∈ key_pairs (groups st) →
  in_group (groups st) g1 t1 → in_group (groups st) g2 t2 →
  combines t1 t2 c →
  ∃ l1 l2, chars t1 = l1 ++ "0"%char :: l2 ∧
           chars t2 = l1 ++ "1"%char :: l2 ∧
           chars c = l1 ++ "-"%char :: l2 ∧ dashes (chars c) = S r.
Proof.
  intros Hinv Hex Hp H1 H2 [Hc _].
  apply key_pairs_lt in Hp as (Hlt & _).
  assert (t1 ∈ unchecked st ∧ t2 ∈ unchecked st) as [Hu1 Hu2]
    by (split; apply (inv_unchecked _ _ _ Hinv); eauto).
  apply (exact_unchecked _ _ _ _ Hex) in Hu1 as [_ Hd1].
  apply (exact_unchecked _ _ _ _ Hex) in Hu2 as [_ Hd2].
  apply (inv_group _ _ _ Hinv) in H1 as (Hk1 & Hl1 & Ht1 & _).
  apply (inv_group _ _ _ Hinv) in H2 as (Hk2 & Hl2 & _).
  apply combine_terms_inv in Hc; [|congruence].
  destruct Hc as [[-> _]|(l1 & x & y & l2 & _ & E1 & E2 & E3)]; [lia|].
  unfold count_ones, count_dashes, ternary in *.
  rewrite E1 in Hk1, Hd1, Ht1. rewrite E2 in Hk2, Hd2.
  rewrite ones_middle in Hk1, Hk2. rewrite dashes_middle in Hd1, Hd2.
  apply Forall_app in Ht1 as [_ [Hx _]%Forall_cons].
  assert (y = "1"%char) as -> by (repeat case_decide; (done || lia)).
  assert (x = "0"%char) as ->.
  { destruct Hx as [?|[->| ->]]; [done|..];
      repeat case_decide; (done || lia). }
  exists l1, l2. repeat split; try done.
  rewrite E3, dashes_middle. repeat case_decide; (done || lia).
Qed.

(** A position that does not hold ['-'] splits the term around it. *)
Lemma widen_at t i x :
  chars t !! i = Some x →
  ∃ l1 l2, chars t = l1 ++ x :: l2 ∧ length l1 = i ∧
           replace_at i "-" t = string_of_list_ascii (l1 ++ "-"%char :: l2).
Proof.
  intros Hix. pose proof (lookup_lt_Some _ _ _ Hix) as Hlt.
  exists (take i (chars t)), (drop (S i) (chars t)). split; [|split].
  - by rewrite take_drop_middle.
  - rewrite length_take. lia.
  - unfold replace_at. by rewrite insert_take_drop.
Qed.

Lemma good_widen l1 x l2 :
  good_term minterms n (string_of_list_ascii (l1 ++ x :: l2)) →
  sound minterms (string_of_list_ascii (l1 ++ "-"%char :: l2)) →
  good_term minterms n (string_of_list_ascii (l1 ++ "-"%char :: l2)).
Proof.
  intros (Hlen & Ht & _) Hs. split; [|split; [|done]].
  - rewrite <-Hlen, <-!length_chars, !chars_of_list, !length_app. done.
  - unfold ternary in *. rewrite chars_of_list in Ht |- *.
    apply Forall_app in Ht as [H1 [_ H2]%Forall_cons].
    apply Forall_app. split; [done|]. apply Forall_cons. auto.
Qed.

Lemma used_widenable st r t :
  inv minterms n st → exact minterms n r st →
  used_in (groups st) t → widenable minterms t.
Proof.
  intros Hinv Hex (g1 & g2 & t1 & t2 & c & Hp & H1 & H2 & Hc & Ht).
  destruct (round_combination st r g1 g2 t1 t2 c)
    as (l1 & l2 & E1 & E2 & E3 & _); [done..|].
  assert (sound minterms c) as Hs.
  { assert (in_group (groups (round st)) g1 c) as Hg
      by (apply round_groups; by exists g2, t1, t2).
    by apply (inv_group _ _ _ (inv_round minterms n st Hinv)) in Hg
      as (_ & _ & _ & ?). }
  assert (∀ x, x ≠ "-"%char → chars t = l1 ++ x :: l2 →
               widenable minterms t) as Hw.
  { intros x Hx Et. exists (length l1), x.
    split; [rewrite Et; by apply list_lookup_middle|]. split; [done|].
    assert (replace_at (length l1) "-" t = c) as ->; [|done].
    apply chars_inj. unfold replace_at.
    by rewrite chars_of_list, Et, insert_middle, E3. }
  destruct Ht as [->| ->]; [by apply (Hw "0"%char) | by apply (Hw "1"%char)].
Qed.

Lemma widenable_used st r t :
  inv minterms n st → exact minterms n r st →
  t ∈ unchecked st → widenable minterms t → used_in (groups st) t.
Proof.
  intros Hinv Hex Hu (i & x & Hix & Hx & Hs).
  apply (exact_unchecked _ _ _ _ Hex) in Hu as [Hgood Hd].
  destruct (widen_at t i x Hix) as (l1 & l2 & Et & _ & Ec).
  rewrite Ec in Hs. apply str_chars in Et as ->.
  assert (x = "0"%char ∨ x = "1"%char) as Hx01.
  { destruct Hgood as (_ & Ht & _). unfold ternary in Ht.
    rewrite chars_of_list in Ht.
    apply Forall_app in Ht as [_ [[?|[?|?]] _]%Forall_cons]; auto. done. }
  unfold count_dashes in Hd. rewrite chars_of_list, dashes_middle in Hd.
  rewrite decide_False in Hd by done.
  destruct (siblings st r l1 l2) as (k & Hp & H0 & H1 & Hc); [done|done| |..].
  { by apply (good_widen l1 x l2). }
  { rewrite dashes_middle, decide_True by done. lia. }
  exists k, (S k), (string_of_list_ascii (l1 ++ "0"%char :: l2)),
    (string_of_list_ascii (l1 ++ "1"%char :: l2)),
    (string_of_list_ascii (l1 ++ "-"%char :: l2)).
  repeat (split; [done|]). destruct Hx01 as [->| ->]; auto.
Qed.

Lemma exact_init : exact minterms n 0 (minimize_init minterms).
Proof.
  split; simpl.
  - intros t. rewrite elem_of_list_to_set. split.
    + intros Ht. split.
      * assert (in_group (groups (minimize_init minterms)) (count_ones t) t)
          as Hg by (by apply in_group_by_ones).
        by apply (inv_group _ _ _ (inv_init minterms n Hvalid)) in Hg as [_ ?].
      * apply binary_dashes. by apply (valid_elem minterms n Hvalid).
    + intros [(_ & Ht & Hs) Hd]. apply Hs; [|apply subsumes_refl].
      by apply ternary_no_dashes.
  - intros t. split; [by intros []%elem_of_empty|]. intros (_ & _ & ?). lia.
Qed.

Lemma exact_round st r :
  inv minterms n st → exact minterms n r st →
  exact minterms n (S r) (round st).
Proof.
  intros Hinv Hex. pose proof (inv_round minterms n st Hinv) as Hinv'.
  split.
  - intros t. rewrite round_unchecked. split.
    + intros [k Hk]. split; [by apply (inv_group _ _ _ Hinv') in Hk as [_ ?]|].
      apply round_groups in Hk as (g2 & t1 & t2 & Hp & H1 & H2 & Hc).
      by destruct (round_combination st r k g2 t1 t2 t)
        as (_ & _ & _ & _ & _ & ?).
    + intros [Hgood Hd]. unfold count_dashes in Hd.
      destruct (dashes_split (chars t)) as (l1 & l2 & Et); [lia|].
      rewrite Et in Hd. apply str_chars in Et as ->.
      destruct (siblings st r l1 l2) as (k & Hp & H0 & H1 & Hc); [done..|].
      exists k. apply round_groups.
      by exists (S k), (string_of_list_ascii (l1 ++ "0"%char :: l2)),
        (string_of_list_ascii (l1 ++ "1"%char :: l2)).
  - intros t. rewrite round_checked, (exact_checked _ _ _ _ Hex).
    rewrite (exact_unchecked _ _ _ _ Hex). split.
    + intros [(? & ? & ?)|[[Hgood Hd] Hnu]]; [split; [done|split; [done|lia]]|].
      split; [done|]. split; [|lia]. intros Hw. apply Hnu.
      apply (widenable_used st r); [done..| |done].
      by apply (exact_unchecked _ _ _ _ Hex).
    + intros (Hgood & Hnw & Hd).
      destruct (decide (count_dashes t < r)); [by left|]. right.
      split; [split; [done|lia]|].
      intros Hu. by apply Hnw, (used_widenable st r).
Qed.

Lemma exact_iter r :
  inv minterms n (Nat.iter r round (minimize_init minterms)) ∧
  exact minterms n r (Nat.iter r round (minimize_init minterms)).
Proof.
  induction r as [|r [IHi IHe]]; simpl.
  - split; [by apply inv_init | apply exact_init].
  - split; [by apply inv_round | by apply exact_round].
Qed.

(** Where no implicant has [r] dashes, none has more. *)
Lemma no_more_dashes r d t :
  (∀ t, good_term minterms n t → count_dashes t ≠ r) →
  good_term minterms n t → count_dashes t ≠ r + d.
Proof.
  intros Hr. revert t. induction d as [|d IH]; intros t Hgood.
  - rewrite Nat.add_0_r. by apply Hr.
  - intros Hd. unfold count_dashes in Hd.
    destruct (dashes_split (chars t)) as (l1 & l2 & Et); [lia|].
    rewrite Et in Hd. apply str_chars in Et as ->.
    apply (IH (string_of_list_ascii (l1 ++ "0"%char :: l2))).
    + apply good_narrow; [by left | done].
    + unfold count_dashes. rewrite chars_of_list.
      rewrite dashes_middle in Hd |- *.
      rewrite decide_True in Hd by done. rewrite decide_False by done. lia.
Qed.

Lemma admits_cases (l' l : list ascii) :
  Forall2 admits l' l →
  l' = l ∨ ∃ l1 x l2, l = l1 ++ x :: l2 ∧ x ≠ "-"%char ∧
                      Forall2 admits l' (l1 ++ "-"%char :: l2).
Proof.
  induction 1 as [|x' y l' l Hxy Hl IH]; [by left|].
  destruct IH as [->|(l1 & x & l2 & -> & Hx & Hw)].
  - destruct (decide (x' = y)) as [->|Hne]; [by left|].
    destruct Hxy as [->|?]; [|done]. right. exists [], y, l.
    split; [done|]. split; [congruence|]. simpl.
    apply Forall2_cons. split; [by left|].
    apply Forall_Forall2_diag, Forall_forall. by right.
  - right. exists (y :: l1), x, l2. split; [done|]. split; [done|].
    simpl. by apply Forall2_cons.
Qed.

Lemma admits_trans (a b c : list ascii) :
  Forall2 admits a b → Forall2 admits b c → Forall2 admits a c.
Proof.
  intros Hab. revert c. induction Hab as [|x y a b Hxy _ IH]; intros c Hbc.
  - by apply Forall2_nil_inv_l in Hbc as ->.
  - apply Forall2_cons_inv_l in Hbc as (z & c' & Hyz & Hbc & ->).
    apply Forall2_cons. split; [|by apply IH].
    destruct Hxy as [->| ->]; [by left | done].
Qed.

Lemma prime_iff t :
  prime_implicant minterms n t ↔
  good_term minterms n t ∧ ¬ widenable minterms t.
Proof.
  split.
  - intros [Hgood Hmax]. split; [done|]. intros (i & x & Hix & Hx & Hs).
    destruct (widen_at t i x Hix) as (l1 & l2 & Et & Hi & Ec).
    rewrite Ec in Hs.
    assert (string_of_list_ascii (l1 ++ "-"%char :: l2) = t) as E.
    { apply Hmax.
      - apply (good_widen l1 x l2); [|done].
        by rewrite <-Et, string_of_list_ascii_of_string.
      - unfold subsumes. rewrite chars_of_list, Et.
        apply Forall2_app; [apply Forall_Forall2_diag, Forall_forall; by right|].
        apply Forall2_cons. split; [by left|].
        apply Forall_Forall2_diag, Forall_forall. by right. }
    apply (f_equal chars) in E. rewrite chars_of_list, Et in E.
    apply app_inv_head in E. congruence.
  - intros [Hgood Hnw]. split; [done|]. intros t' Hgood' Hsub.
    apply chars_inj. destruct (admits_cases _ _ Hsub)
      as [?|(l1 & x & l2 & Et & Hx & Hw)]; [done|].
    exfalso. apply Hnw. exists (length l1), x.
    split; [rewrite Et; by apply list_lookup_middle|]. split; [done|].
    intros m Hb Hm. destruct Hgood' as (_ & _ & Hs'). apply Hs'; [done|].
    unfold subsumes, replace_at in *.
    rewrite chars_of_list, Et, insert_middle in Hm.
    by apply (admits_trans _ (l1 ++ "-"%char :: l2)).
Qed.

(** The result of the loop, exactly. *)
Lemma minimize_exact :
  ∃ r st, r ≤ n + 1 ∧
    (∀ fuel, r ≤ fuel →
             minimize_rounds fuel minterms = Some (r, ∅ ∪ checked st)) ∧
    st = Nat.iter r round (minimize_init minterms) ∧
    ∀ t, t ∈ checked st ↔ prime_implicant minterms n t.
Proof.
  destruct (minimize_loop_total (n + 1) (minimize_init minterms))
    as (r & st & Hr & Hrun); [by apply init_keys_bound|].
  exists r, st. split; [done|]. split.
  { intros fuel Hf. unfold minimize_rounds. by rewrite Hrun. }
  destruct (minimize_loop_iter r (minimize_init minterms) r st)
    as (-> & Hend & _); [by apply Hrun|]. split; [done|].
  destruct (exact_iter r) as [Hinv Hex].
  assert (∀ t, good_term minterms n t → count_dashes t ≠ r) as Hnone.
  { intros t Hgood Hd.
    assert (t ∈ unchecked (Nat.iter r round (minimize_init minterms))) as Hu
      by (by apply (exact_unchecked _ _ _ _ Hex)).
    apply (inv_unchecked _ _ _ Hinv) in Hu as [k Hk].
    rewrite Hend in Hk. by apply in_group_empty in Hk. }
  intros t. rewrite (exact_checked _ _ _ _ Hex), prime_iff.
  split; [by intros (? & ? & _)|]. intros [Hgood Hnw].
  split; [done|]. split; [done|].
  destruct (decide (count_dashes t < r)) as [|Hge]; [done|]. exfalso.
  apply (no_more_dashes r (count_dashes t - r) t Hnone Hgood). lia.
Qed.
End primes.

(** X10: on minterms over ['0'] and ['1'] of length [n], [minimize]
    returns exactly the prime implicants of the function the minterms
    give: the terms of length [n] over ['0'], ['1'] and ['-'] that cover
    input minterms only and are subsumed by no other such term. *)
Theorem minimize_prime_implicants (minterms : list string) (n : nat) :
  valid_input n minterms →
  ∃ res, (∀ fuel, n < fuel → minimize fuel minterms = Some res) ∧
         ∀ t, t ∈ res ↔ prime_implicant minterms n t.
Proof.
  intros Hvalid.
  destruct (minimize_exact minterms n Hvalid) as (r & st & Hr & Hrun & _ & Hp).
  exists (∅ ∪ checked st). split.
  - intros fuel Hf. unfold minimize. rewrite Hrun by lia. done.
  - intros t. rewrite <-Hp. set_solver.
Qed.

Lemma minimize_prime_implicants_witness :
  ∃ res, (∀ fuel, 4 < fuel →
                  minimize fuel ["0001"; "0011"; "0111"] = Some res) ∧
         ∀ t, t ∈ res ↔ prime_implicant ["0001"; "0011"; "0111"] 4 t.
Proof.
  apply (minimize_prime_implicants ["0001"; "0011"; "0111"] 4).
  apply (bool_decide_unpack _). vm_compute. exact I.
Defined.

(** X11: on minterms over ['0'] and ['1'] of length [n], the generation
    at the start of round [r + 1] is exactly the set of the implicants
    that hold [r] symbols ['-']. *)
Theorem generation_is_implicants_with_r_dashes
    (minterms : list string) (n r : nat) (t : string) :
  valid_input n minterms →
  t ∈ unchecked (Nat.iter r round (minimize_init minterms)) ↔
  good_term minterms n t ∧ count_dashes t = r.
Proof.
  intros Hvalid. destruct (exact_iter minterms n Hvalid r) as [_ Hex].
  apply (exact_unchecked _ _ _ _ Hex).
Qed.

Lemma generation_is_implicants_with_r_dashes_witness :
  "0-11" ∈ unchecked (Nat.iter 1 round
                        (minimize_init ["0001"; "0011"; "0111"])) ↔
  good_term ["0001"; "0011"; "0111"] 4 "0-11" ∧ count_dashes "0-11" = 1.
Proof.
  apply (generation_is_implicants_with_r_dashes ["0001"; "0011"; "0111"] 4 1).
  apply (bool_decide_unpack _). vm_compute. exact I.
Defined.

(** X12: on minterms over ['0'] and ['1'] of one length, in every round
    the nested loops try every pair of distinct terms of the generation
    that [combine_terms] can combine: pairing only the neighbouring
    sorted keys leaves no such pair out. *)
Theorem round_tries_every_combinable_pair
    (minterms : list string) (n r k1 k2 : nat) (t1 t2 c : string) :
  valid_input n minterms →
  in_group (groups (Nat.iter r round (minimize_init minterms))) k1 t1 →
  in_group (groups (Nat.iter r round (minimize_init minterms))) k2 t2 →
  t1 ≠ t2 →
  combine_terms t1 t2 = Some c →
  (k1, t1, t2) ∈ candidates (groups (Nat.iter r round (minimize_init minterms)))
  ∨ (k2, t2, t1) ∈
      candidates (groups (Nat.iter r round (minimize_init minterms))).
Proof.
  intros Hvalid H1 H2 Hne Hc.
  destruct (exact_iter minterms n Hvalid r) as [Hinv Hex].
  set (st := Nat.iter r round (minimize_init minterms)) in *.
  destruct (lt_eq_lt_dec k1 k2) as [[Hlt|<-]|Hlt].
  - left. apply elem_of_candidates. exists k2. split; [|done].
    by apply (round_skips_nothing minterms n st k1 k2 t1 t2 c).
  - exfalso.
    assert (t1 ∈ unchecked st ∧ t2 ∈ unchecked st) as [Hu1 Hu2]
      by (split; apply (inv_unchecked _ _ _ Hinv); eauto).
    apply (exact_unchecked _ _ _ _ Hex) in Hu1 as [(_ & Ht1 & _) Hd1].
    apply (exact_unchecked _ _ _ _ Hex) in Hu2 as [(_ & Ht2 & _) Hd2].
    apply (inv_group _ _ _ Hinv) in H1 as (Hk1 & Hl1 & _).
    apply (inv_group _ _ _ Hinv) in H2 as (Hk2 & Hl2 & _).
    apply combine_terms_inv in Hc; [|congruence].
    destruct Hc as [[-> _]|(l1 & x & y & l2 & Hxy & E1 & E2 & _)]; [done|].
    unfold count_ones, count_dashes, ternary in *.
    rewrite E1 in Hk1, Hd1, Ht1. rewrite E2 in Hk2, Hd2, Ht2.
    rewrite ones_middle in Hk1, Hk2. rewrite dashes_middle in Hd1, Hd2.
    apply Forall_app in Ht1 as [_ [Hx _]%Forall_cons].
    apply Forall_app in Ht2 as [_ [Hy _]%Forall_cons].
    destruct Hx as [->|[->| ->]], Hy as [->|[->| ->]];
      repeat case_decide; (done || lia).
  - right. apply elem_of_candidates. exists k1. split; [|done].
    apply (round_skips_nothing minterms n st k2 k1 t2 t1 c); try done.
    by rewrite combine_terms_symmetric_aux.
Qed.

(** * The PLA reader and writer *)

Section pla.
Implicit Types l : list ascii.

Lemma chars_append (s t : string) : chars (s +:+ t) = chars s ++ chars t.
Proof. induction s as [|c s IH]; simpl; [done | by rewrite IH]. Qed.

Lemma chars_nil_inv (s : string) : chars s = [] → s = "".
Proof. by destruct s. Qed.

Lemma lstrip_nonspace c l : is_space c = false → lstrip_chars (c :: l) = c :: l.
Proof. intros H. simpl. by rewrite H. Qed.

Lemma strip_chars_newline c l :
  is_space c = false →
  strip_chars ((c :: l) ++ ["010"%char]) = strip_chars (c :: l).
Proof.
  intros Hc. unfold strip_chars.
  change ((c :: l) ++ ["010"%char]) with (c :: (l ++ ["010"%char])).
  rewrite !lstrip_nonspace by done.
  change (c :: (l ++ ["010"%char])) with ((c :: l) ++ ["010"%char]).
  by rewrite reverse_snoc.
Qed.

Lemma strip_chars_data c l :
  is_space c = false →
  strip_chars ((c :: l) ++ [" "%char; "1"%char; "010"%char])
  = (c :: l) ++ [" "%char; "1"%char].
Proof.
  intros Hc. unfold strip_chars.
  change ((c :: l) ++ [" "%char; "1"%char; "010"%char])
    with (c :: (l ++ [" "%char; "1"%char; "010"%char])).
  rewrite lstrip_nonspace by done.
  change (c :: (l ++ [" "%char; "1"%char; "010"%char]))
    with ((c :: l) ++ [" "%char; "1"%char; "010"%char]).
  rewrite reverse_app.
  change (reverse [" "%char; "1"%char; "010"%char])
    with ["010"%char; "1"%char; " "%char].
  change (lstrip_chars (["010"%char; "1"%char; " "%char] ++ reverse (c :: l)))
    with ("1"%char :: " "%char :: reverse (c :: l)).
  rewrite (reverse_cons (_ :: reverse _)), (reverse_cons (reverse _)).
  by rewrite reverse_involutive, <-!app_assoc.
Qed.

Lemma split_chars_no_sep sep l : sep ∉ l → split_chars sep l = [l].
Proof.
  induction l as [|c l IH]; [done|]. intros Hn. simpl.
  apply not_elem_of_cons in Hn as [Hc Hl].
  rewrite decide_False by done. by rewrite IH.
Qed.

Lemma split_chars_sep sep l1 l2 :
  sep ∉ l1 →
  split_chars sep (l1 ++ sep :: l2) = l1 :: split_chars sep l2.
Proof.
  induction l1 as [|c l1 IH]; intros Hn; simpl.
  - by rewrite decide_True.
  - apply not_elem_of_cons in Hn as [Hc Hl].
    rewrite decide_False by done. by rewrite IH.
Qed.

Lemma split_data (t : string) :
  " "%char ∉ chars t → split " " (t +:+ " 1") = [t; "1"].
Proof.
  intros Hn. unfold split. rewrite chars_append. simpl.
  rewrite split_chars_sep by done. simpl.
  by rewrite string_of_list_ascii_of_string.
Qed.

Lemma parse_body_data (ts minterms printed : list string) :
  Forall (λ t, " "%char ∉ chars t) ts →
  parse_body ((λ t, t +:+ " 1") <$> ts) minterms printed
  = (printed ++ ts, Returned (minterms ++ ts)).
Proof.
  intros Hts. revert minterms printed.
  induction Hts as [|t ts Ht _ IH]; intros minterms printed; simpl.
  - by rewrite !app_nil_r.
  - rewrite split_data by done. rewrite decide_True by done.
    rewrite IH. by rewrite <-!app_assoc.
Qed.

Lemma parse_body_printed body minterms printed :
  printed = minterms →
  ∀ ms, (parse_body body minterms printed).2 = Returned ms →
        (parse_body body minterms printed).1 = ms.
Proof.
  revert minterms printed.
  induction body as [|line body IH]; intros minterms printed -> ms; simpl.
  - by intros [= ->].
  - destruct (split " " line) as [|binary [|output [|]]]; try done.
    destruct (decide (output = "1")); by apply IH.
Qed.

(** A written line is read back as it is. *)
Lemma readlines_chars_line l rest cur :
  Forall (λ c, c ≠ "010"%char ∧ c ≠ "013"%char) l →
  readlines_chars (l ++ "010"%char :: rest) cur
  = (cur ++ l ++ ["010"%char]) :: readlines_chars rest [].
Proof.
  intros Hl. revert cur. induction Hl as [|c l [Hc1 Hc2] _ IH]; intros cur.
  - done.
  - simpl. rewrite !decide_False by done. rewrite IH.
    by rewrite <-app_assoc.
Qed.

Lemma readlines_writes (bodies : list string) :
  Forall one_line bodies →
  readlines (file_text ((λ b, b +:+ newline) <$> bodies))
  = (λ b, b +:+ newline) <$> bodies.
Proof.
  unfold readlines. intros Hb.
  induction Hb as [|b bodies Hb _ IH]; [done|].
  rewrite !fmap_cons. change (file_text (?x :: ?xs)) with (x +:+ file_text xs).
  rewrite !chars_append. change (chars newline) with ["010"%char].
  rewrite <-app_assoc. change (["010"%char] ++ ?r) with ("010"%char :: r).
  rewrite readlines_chars_line by done. rewrite fmap_cons, IH. f_equal.
  apply chars_inj. by rewrite chars_of_list, chars_append.
Qed.

Lemma append_assoc (a b c : string) : (a +:+ b) +:+ c = a +:+ (b +:+ c).
Proof. apply chars_inj. by rewrite !chars_append, app_assoc. Qed.

Lemma startswith_dot (s : string) :
  startswith "." s = true ↔ ∃ l, chars s = "."%char :: l.
Proof.
  unfold startswith. destruct s as [|c s].
  - split; [intros [=] | intros [l [=]]].
  - change (String.prefix "." (String c s))
      with (if ascii_dec "." c then String.prefix "" s else false).
    destruct (ascii_dec "." c) as [<-|Hc].
    + split; [by exists (chars s) | by destruct s].
    + split; [intros [=]|]. intros [l [= ? _]]. done.
Qed.

Lemma filter_all {A} (P : A → Prop) `{!∀ x, Decision (P x)} (l : list A) :
  Forall P l → filter P l = l.
Proof.
  induction 1 as [|x l Hx _ IH]; [done|].
  by rewrite filter_cons_True, IH.
Qed.

Lemma filter_none {A} (P : A → Prop) `{!∀ x, Decision (P x)} (l : list A) :
  Forall (λ x, ¬ P x) l → filter P l = [].
Proof.
  induction 1 as [|x l Hx _ IH]; [done|].
  by rewrite filter_cons_False.
Qed.

(** A header line as [parse_pla] returns it is read back from its
    written form. *)
Lemma header_line_back (h : string) :
  startswith "." h → strip h = h →
  startswith "." (h +:+ newline) ∧ strip (h +:+ newline) = h.
Proof.
  intros Hdot%Is_true_true Hs. apply startswith_dot in Hdot as [l Hl].
  split.
  - apply Is_true_true, startswith_dot. exists (l ++ ["010"%char]).
    by rewrite chars_append, Hl.
  - rewrite <-Hs at 2. unfold strip. f_equal.
    rewrite chars_append, Hl. by apply strip_chars_newline.
Qed.

(** What [write_pla] writes for a term, and how it is read back. *)
Lemma data_line_back (t : string) :
  writable t →
  ¬ startswith "." ((replace_char "2" "-" t +:+ " 1") +:+ newline) ∧
  (strip ((replace_char "2" "-" t +:+ " 1") +:+ newline)
   = (replace_char "2" "-" t +:+ " 1")) ∧
  (" "%char ∉ chars (replace_char "2" "-" t)) ∧
  one_line (replace_char "2" "-" t +:+ " 1").
Proof.
  intros [Hne Ht].
  assert (Forall (λ c, c = "0"%char ∨ c = "1"%char ∨ c = "-"%char)
                 (chars (replace_char "2" "-" t))) as Hr.
  { unfold replace_char. rewrite chars_of_list. apply Forall_fmap.
    eapply Forall_impl; [done|]. simpl. intros c [->|[->|[->| ->]]]; auto. }
  destruct (chars (replace_char "2" "-" t)) as [|c l] eqn:E.
  { exfalso. apply Hne. unfold replace_char in E.
    rewrite chars_of_list in E. apply fmap_nil_inv in E.
    by apply chars_nil_inv. }
  apply Forall_cons in Hr as [Hc Hl].
  assert (is_space c = false) as Hsp by (by destruct Hc as [->|[->| ->]]).
  split; [|split; [|split]].
  - intros Hdot%Is_true_true. apply startswith_dot in Hdot as [l' Hl'].
    rewrite !chars_append, E in Hl'. simplify_eq/=.
    by destruct Hc as [?|[?|?]].
  - apply chars_inj. unfold strip.
    rewrite chars_of_list, !chars_append, E, <-app_assoc.
    by apply strip_chars_data.
  - intros [<-|Hin]%elem_of_cons; [by destruct Hc as [?|[?|?]]|].
    rewrite Forall_forall in Hl. by destruct (Hl _ Hin) as [?|[?|?]].
  - unfold one_line. rewrite chars_append, E. apply Forall_app. split.
    + apply Forall_cons. split; [by destruct Hc as [->|[->| ->]]|].
      eapply Forall_impl; [done|]. by intros ? [->|[->| ->]].
    + by repeat constructor.
Qed.

Lemma pla_header_back (hs ts : list string) :
  Forall back_ok_header hs → Forall back_ok_data ts →
  pla_header ((λ b, b +:+ newline)
                <$> (hs ++ ((λ t, t +:+ " 1") <$> ts) ++ [".e"]))
  = hs ++ [".e"].
Proof.
  intros Hhs Hts. unfold pla_header.
  rewrite !fmap_app, !filter_app, !fmap_app.
  rewrite (filter_all (λ line, startswith "." line)
             ((λ b, b +:+ newline) <$> hs)); last first.
  { apply Forall_fmap. eapply Forall_impl; [done|].
    intros h [Hd Hs]. simpl. by apply header_line_back. }
  rewrite (filter_none (λ line, startswith "." line)
             ((λ b, b +:+ newline) <$> ((λ t, t +:+ " 1") <$> ts)));
    last first.
  { apply Forall_fmap, Forall_fmap. eapply Forall_impl; [done|].
    by intros t [Hn _]. }
  simpl. f_equal. rewrite <-list_fmap_compose.
  rewrite <-(list_fmap_id hs) at 2.
  apply Forall_fmap_ext_1. eapply Forall_impl; [done|].
  intros h [Hd Hs]. simpl. by apply header_line_back.
Qed.

Lemma pla_body_back (hs ts : list string) :
  Forall back_ok_header hs → Forall back_ok_data ts →
  pla_body ((λ b, b +:+ newline)
              <$> (hs ++ ((λ t, t +:+ " 1") <$> ts) ++ [".e"]))
  = (λ t, t +:+ " 1") <$> ts.
Proof.
  intros Hhs Hts. unfold pla_body.
  rewrite !fmap_app, !filter_app, !fmap_app.
  rewrite (filter_none (λ line, ¬ startswith "." line ∧ strip line ≠ "")
             ((λ b, b +:+ newline) <$> hs)); last first.
  { apply Forall_fmap. eapply Forall_impl; [done|].
    intros h [Hd Hs] [Hn _]. simpl in *. by apply Hn, header_line_back. }
  rewrite (filter_all (λ line, ¬ startswith "." line ∧ strip line ≠ "")
             ((λ b, b +:+ newline) <$> ((λ t, t +:+ " 1") <$> ts)));
    last first.
  { apply Forall_fmap, Forall_fmap. eapply Forall_impl; [done|].
    intros t [Hn Hs]. simpl. split; [done|]. rewrite Hs. by destruct t. }
  simpl. rewrite app_nil_r. rewrite <-!list_fmap_compose.
  apply Forall_fmap_ext_1. eapply Forall_impl; [done|].
  by intros t [_ Hs].
Qed.
End pla.

(** Writing, then reading the lines back and parsing them. *)
Lemma write_then_parse (header terms : list string) :
  Forall (λ h, startswith "." h ∧ strip h = h ∧ one_line h) header →
  Forall writable terms →
  parse_pla (readlines (file_text (write_pla header terms)))
  = (replace_char "2" "-" <$> terms,
     Returned (filter (λ h, h ≠ ".e") header ++ [".e"],
               replace_char "2" "-" <$> terms)).
Proof.
  intros Hh Ht.
  set (hs := filter (λ line, strip line ≠ ".e") header).
  set (ts := replace_char "2" "-" <$> terms).
  assert (Forall (λ h, startswith "." h ∧ strip h = h ∧ one_line h) hs) as Hhs.
  { apply Forall_forall. intros h [_ Hin]%list_elem_of_filter.
    rewrite Forall_forall in Hh. by apply Hh. }
  assert (hs = filter (λ h, h ≠ ".e") header) as Ehs.
  { unfold hs. clear Hhs hs. induction Hh as [|h header (_ & Hs & _) _ IH];
      [done|]. rewrite !filter_cons, Hs, IH. done. }
  assert (write_pla header terms
          = (λ b, b +:+ newline) <$> (hs ++ ((λ t, t +:+ " 1") <$> ts) ++ [".e"]))
    as ->.
  { unfold write_pla. fold hs. rewrite !fmap_app. f_equal. f_equal.
    unfold ts. rewrite <-!list_fmap_compose. apply Forall_fmap_ext_1.
    apply Forall_forall. intros t _. simpl. by rewrite append_assoc. }
  rewrite readlines_writes; last first.
  { apply Forall_app. split; [|apply Forall_app; split].
    - eapply Forall_impl; [done|]. by intros h (_ & _ & ?).
    - unfold ts. rewrite <-list_fmap_compose. apply Forall_fmap.
      eapply Forall_impl; [done|]. intros t Hw. simpl.
      by apply data_line_back in Hw as (_ & _ & _ & ?).
    - by repeat constructor. }
  assert (Forall back_ok_header hs) as Hhs'
    by (eapply Forall_impl; [done|]; by intros h (? & ? & _)).
  assert (Forall back_ok_data ts) as Hts.
  { unfold ts. apply Forall_fmap. eapply Forall_impl; [done|].
    intros t Hw. simpl. by apply data_line_back in Hw as (? & ? & _). }
  assert (Forall (λ t, " "%char ∉ chars t) ts) as Hsp.
  { unfold ts. apply Forall_fmap. eapply Forall_impl; [done|].
    intros t Hw. simpl. by apply data_line_back in Hw as (_ & _ & ? & _). }
  unfold parse_pla. rewrite pla_header_back, pla_body_back by done.
  rewrite parse_body_data by done. simpl. by rewrite Ehs.
Qed.

(** X13: the file [write_pla] writes is parsed back by [parse_pla]: for
    header lines as [parse_pla] returns them and terms over ['0'], ['1'],
    ['-'] and ['2'], the header comes back with its [.e] lines replaced
    by one [.e] at the end, and the terms come back in order with ['2']
    turned into ['-']. *)
Theorem pla_round_trip (header terms : list string) :
  Forall (λ h, startswith "." h ∧ strip h = h ∧ one_line h) header →
  Forall writable terms →
  parse_pla (readlines (file_text (write_pla header terms)))
  = (replace_char "2" "-" <$> terms,
     Returned (filter (λ h, h ≠ ".e") header ++ [".e"],
               replace_char "2" "-" <$> terms)).
Proof. apply write_then_parse. Qed.

Section reader.
Implicit Types l : list ascii.

Lemma split_chars_nonempty sep l : split_chars sep l ≠ [].
Proof.
  destruct l as [|c l]; simpl; [done|].
  case_decide; [done|]. by destruct (split_chars sep l).
Qed.

Lemma length_split_chars sep l :
  length (split_chars sep l) = S (length (filter (λ x, x = sep) l)).
Proof.
  induction l as [|c l IH]; [done|]. simpl. rewrite filter_cons.
  case_decide; simpl; [by rewrite IH|].
  destruct (split_chars sep l); simpl in *; lia.
Qed.

Lemma length_split (s : string) :
  length (split " " s) = S (count_char " " s).
Proof. unfold split, count_char. by rewrite length_fmap, length_split_chars. Qed.

Lemma split_chars_single sep l b :
  split_chars sep l = [b] → l = b ∧ sep ∉ b.
Proof.
  revert b. induction l as [|c l IH]; intros b; simpl.
  - intros [= <-]. split; [done | apply not_elem_of_nil].
  - case_decide as Hc.
    + intros [= _ E]. by apply split_chars_nonempty in E.
    + destruct (split_chars sep l) as [|p ps] eqn:E;
        [by apply split_chars_nonempty in E|].
      intros [= <- ->]. destruct (IH p eq_refl) as [-> Hp].
      split; [done|]. by apply not_elem_of_cons.
Qed.

Lemma split_chars_pair sep l a b :
  split_chars sep l = [a; b] → l = a ++ sep :: b ∧ (sep ∉ a) ∧ (sep ∉ b).
Proof.
  revert a. induction l as [|c l IH]; intros a; simpl; [done|].
  case_decide as Hc.
  - intros [= <- E]. apply split_chars_single in E as [-> Hb].
    subst c. split; [done|]. split; [apply not_elem_of_nil | done].
  - destruct (split_chars sep l) as [|p ps] eqn:E; [done|].
    intros [= <- ->]. destruct (IH p eq_refl) as (-> & Hp & Hb).
    split; [done|]. split; [by apply not_elem_of_cons | done].
Qed.

(** The last separator of a list is at one place. *)
Lemma last_sep_unique (sep : ascii) l1 l2 k1 k2 :
  l1 ++ sep :: l2 = k1 ++ sep :: k2 → sep ∉ l2 → sep ∉ k2 →
  l1 = k1 ∧ l2 = k2.
Proof.
  intros E H2 K2. assert (l2 = k2) as ->; [|by apply app_inv_tail in E].
  apply (f_equal reverse) in E.
  rewrite !reverse_app, !reverse_cons, <-!app_assoc in E. simpl in E.
  assert (∀ (a b c d : list ascii), a ++ sep :: b = c ++ sep :: d →
            sep ∉ a → sep ∉ c → a = c) as Hfirst.
  { clear. intros a. induction a as [|x a IH]; intros b [|y c] d E Ha Hc.
    - done.
    - simplify_eq/=. exfalso. apply Hc, list_elem_of_here.
    - simplify_eq/=. exfalso. apply Ha, list_elem_of_here.
    - simplify_eq/=. f_equal. apply not_elem_of_cons in Ha as [_ Ha].
      apply not_elem_of_cons in Hc as [_ Hc]. by eapply IH. }
  apply (inj reverse). eapply Hfirst; [done|..];
    by rewrite elem_of_reverse.
Qed.

Lemma selected_data (line m : string) :
  length (split " " line) = 2 →
  selected line = Some m ↔ line = m +:+ " 1".
Proof.
  unfold selected, split. intros Hlen.
  destruct (split_chars " " (chars line)) as [|a [|b [|]]] eqn:E;
    simpl in Hlen; try done.
  apply split_chars_pair in E as (El & Ha & Hb). simpl. split.
  - case_decide as Hone; [|done]. intros [= <-]. apply chars_inj.
    rewrite chars_append, chars_of_list, El. simpl.
    apply (f_equal chars) in Hone. rewrite chars_of_list in Hone.
    by rewrite Hone.
  - intros ->. rewrite chars_append in El. simpl in El.
    change (chars m ++ [" "%char; "1"%char])
      with (chars m ++ " "%char :: ["1"%char]) in El.
    apply last_sep_unique in El as [<- <-]; [|by apply not_elem_of_cons; split;
      [|apply not_elem_of_nil]|done].
    rewrite decide_True by done. by rewrite string_of_list_ascii_of_string.
Qed.

(** The loop of [parse_pla], in one formula. *)
Lemma parse_body_spec body minterms printed :
  (parse_body body minterms printed).2
  = if decide (Forall (λ line, length (split " " line) = 2) body)
    then Returned (minterms ++ omap selected body)
    else ValueError.
Proof.
  revert minterms printed.
  induction body as [|line body IH]; intros minterms printed.
  - rewrite decide_True by constructor. simpl. by rewrite app_nil_r.
  - destruct (decide (Forall _ (line :: body))) as [Hb|Hb].
    + apply Forall_cons in Hb as [Hline Hb].
      change (omap selected (line :: body))
        with (match selected line with
              | Some y => y :: omap selected body
              | None => omap selected body
              end).
      unfold selected at 1. cbn [parse_body].
      destruct (split " " line) as [|binary [|output [|]]]; try done.
      destruct (decide (output = "1")); rewrite IH, decide_True by done;
        [by rewrite <-app_assoc | done].
    + cbn [parse_body].
      destruct (split " " line) as [|binary [|output [|]]] eqn:E; try done.
      assert (¬ Forall (λ line, length (split " " line) = 2) body) as Hb'.
      { intros H. apply Hb, Forall_cons. split; [by rewrite E | done]. }
      destruct (decide (output = "1")); by rewrite IH, decide_False.
Qed.

Lemma elem_of_pla_body lines b :
  b ∈ pla_body lines ↔
  ∃ line, line ∈ lines ∧ ¬ startswith "." line ∧ b = strip line ∧ b ≠ "".
Proof.
  unfold pla_body. rewrite list_elem_of_fmap. split.
  - intros (line & -> & [[? ?] ?]%list_elem_of_filter). by exists line.
  - intros (line & ? & ? & -> & ?). exists line. split; [done|].
    by apply list_elem_of_filter.
Qed.
End reader.

(** X14: when [parse_pla] returns, it has printed the minterms it
    returns, in order. *)
Theorem parse_pla_prints_minterms (lines header minterms : list string) :
  (parse_pla lines).2 = Returned (header, minterms) →
  (parse_pla lines).1 = minterms.
Proof.
  unfold parse_pla. simpl.
  destruct (parse_body (pla_body lines) [] []).2 as [ms|] eqn:E; [|done].
  intros [= _ <-]. by apply (parse_body_printed _ [] []).
Qed.

Lemma parse_pla_prints_minterms_witness :
  (parse_pla ["0001 1"; "0100 0"; "0011 1"]).1 = ["0001"; "0011"].
Proof.
  apply (parse_pla_prints_minterms _ []). vm_compute. reflexivity.
Defined.

(** X15: [parse_pla] raises [ValueError] exactly when some line that does
    not start with a dot and is not blank holds, once stripped, a number
    of spaces other than one. *)
Theorem parse_pla_value_error (lines : list string) :
  (parse_pla lines).2 = ValueError ↔
  ∃ line, line ∈ lines ∧ ¬ startswith "." line ∧ strip line ≠ "" ∧
          count_char " " (strip line) ≠ 1.
Proof.
  unfold parse_pla. simpl. rewrite parse_body_spec.
  destruct (decide (Forall _ (pla_body lines))) as [Hb|Hb].
  - split; [done|]. intros (line & Hin & Hd & Hne & Hc). exfalso.
    rewrite Forall_forall in Hb.
    specialize (Hb (strip line)). rewrite length_split in Hb.
    assert (strip line ∈ pla_body lines)
      by (apply elem_of_pla_body; by exists line).
    apply Hc. by apply Nat.succ_inj, Hb.
  - split; [|done]. intros _.
    apply not_Forall_Exists in Hb; [|apply _].
    apply Exists_exists in Hb as (b & Hin & Hlen).
    apply elem_of_pla_body in Hin as (line & ? & ? & -> & ?).
    exists line. repeat (split; [done|]). simpl in Hlen.
    rewrite length_split in Hlen. lia.
Qed.

(** X16: when [parse_pla] returns, its minterms are exactly the strings
    [m] for which some line that does not start with a dot is, once
    stripped, [m] followed by a space and ["1"]. *)
Theorem parse_pla_minterms (lines header minterms : list string) (m : string) :
  (parse_pla lines).2 = Returned (header, minterms) →
  m ∈ minterms ↔
  ∃ line, line ∈ lines ∧ ¬ startswith "." line ∧ strip line = m +:+ " 1".
Proof.
  unfold parse_pla. simpl. rewrite parse_body_spec.
  case_decide as Hb; [|done]. intros [= _ <-]. simpl.
  rewrite Forall_forall in Hb. rewrite list_elem_of_omap. split.
  - intros (b & Hin & Hsel). pose proof (Hb b Hin) as Hlen.
    apply selected_data in Hsel; [|done].
    apply elem_of_pla_body in Hin as (line & ? & ? & E & _).
    exists line. by rewrite <-E.
  - intros (line & Hin & Hd & Hs). exists (strip line).
    assert (strip line ∈ pla_body lines) as Hbody.
    { apply elem_of_pla_body. exists line. repeat (split; [done|]).
      rewrite Hs. by destruct m. }
    split; [done|]. apply selected_data; [by apply Hb | done].
Qed.

Lemma parse_pla_minterms_witness :
  "0011" ∈ ["0001"; "0011"] ↔
  ∃ line, line ∈ [".i 4"; "0001 1"; "0100 0"; "0011 1"] ∧
          ¬ startswith "." line ∧ strip line = "0011" +:+ " 1".
Proof.
  apply (parse_pla_minterms [".i 4"; "0001 1"; "0100 0"; "0011 1"] [".i 4"]).
  vm_compute. reflexivity.
Defined.

(** X17: [write_pla] writes the end marker [.e] once, as its last line:
    no string written before it is that line. *)
Theorem write_pla_end_marker (header minterms : list string) :
  ∃ init, write_pla header minterms = init ++ [".e" +:+ newline] ∧
          ".e" +:+ newline ∉ init.
Proof.
  unfold write_pla. eexists. rewrite app_assoc. split; [done|].
  intros [Hin|Hin]%elem_of_app.
  - apply list_elem_of_fmap in Hin as (h & E & [Hs _]%list_elem_of_filter).
    apply Hs. apply (f_equal chars) in E. rewrite !chars_append in E.
    apply app_inv_tail, chars_inj in E. by subst h.
  - apply list_elem_of_fmap in Hin as (t & E & _).
    apply (f_equal chars) in E. rewrite !chars_append in E. simpl in E.
    destruct (chars (replace_char "2" "-" t)) as [|c1 [|c2 [|c3 r]]];
      simplify_eq/=. by destruct r.
Qed.

(** * Stripping *)

Section strip.
Implicit Types l : list ascii.

Lemma lstrip_head l c r : lstrip_chars l = c :: r → is_space c = false.
Proof.
  induction l as [|x l IH]; simpl; [done|].
  destruct (is_space x) eqn:E; [done|]. by intros [= <- _].
Qed.

Lemma lstrip_fixed l : (∀ c r, l = c :: r → is_space c = false) →
  lstrip_chars l = l.
Proof.
  destruct l as [|c r]; [done|]. intros H. simpl. by rewrite (H c r).
Qed.

Lemma lstrip_idem l : lstrip_chars (lstrip_chars l) = lstrip_chars l.
Proof.
  apply lstrip_fixed. intros c r E. by apply lstrip_head in E.
Qed.

Lemma lstrip_decomp l : ∃ ws, l = ws ++ lstrip_chars l.
Proof.
  induction l as [|x l [ws IH]]; [by exists []|]. simpl.
  destruct (is_space x); [|by exists []].
  exists (x :: ws). simpl. by rewrite <-IH.
Qed.

Lemma lstrip_Forall (P : ascii → Prop) l :
  Forall P l → Forall P (lstrip_chars l).
Proof.
  destruct (lstrip_decomp l) as [ws E]. rewrite E at 1.
  by intros [_ ?]%Forall_app.
Qed.

Lemma lstrip_snoc_space l w :
  is_space w = true →
  lstrip_chars (l ++ [w])
  = match lstrip_chars l with [] => [] | _ => lstrip_chars l ++ [w] end.
Proof.
  intros Hw. induction l as [|x l IH]; simpl; [by rewrite Hw|].
  destruct (is_space x); [done|]. done.
Qed.

Lemma lstrip_snoc_nonspace l d :
  is_space d = false → ∃ y, lstrip_chars (l ++ [d]) = y ++ [d].
Proof.
  intros Hd. induction l as [|x l [y IH]]; simpl.
  - rewrite Hd. by exists [].
  - destruct (is_space x); [by exists y|]. by exists (x :: l).
Qed.

(** The first character of a stripped string is no whitespace. *)
Lemma strip_chars_head l c r : strip_chars l = c :: r → is_space c = false.
Proof.
  unfold strip_chars. intros E.
  destruct (lstrip_decomp (reverse (lstrip_chars l))) as [ws Ews].
  apply (f_equal reverse) in E. rewrite reverse_involutive in E.
  rewrite E in Ews. apply (f_equal reverse) in Ews.
  rewrite reverse_involutive, reverse_app, reverse_involutive in Ews.
  simpl in Ews. by apply lstrip_head in Ews.
Qed.

Lemma strip_chars_idem l : strip_chars (strip_chars l) = strip_chars l.
Proof.
  assert (lstrip_chars (strip_chars l) = strip_chars l) as E1
    by (apply lstrip_fixed; intros c r E; by apply strip_chars_head in E).
  unfold strip_chars at 1. rewrite E1. unfold strip_chars.
  by rewrite reverse_involutive, lstrip_idem.
Qed.

Lemma strip_chars_snoc_space l w :
  is_space w = true → strip_chars (l ++ [w]) = strip_chars l.
Proof.
  intros Hw. unfold strip_chars. rewrite lstrip_snoc_space by done.
  destruct (lstrip_chars l) as [|c r] eqn:E; [done|].
  rewrite reverse_snoc. simpl. by rewrite Hw.
Qed.

Lemma strip_chars_Forall (P : ascii → Prop) l :
  Forall P l → Forall P (strip_chars l).
Proof.
  intros H. unfold strip_chars.
  by apply Forall_reverse, lstrip_Forall, Forall_reverse, lstrip_Forall.
Qed.

Lemma strip_chars_dot r : ∃ r', strip_chars ("."%char :: r) = "."%char :: r'.
Proof.
  unfold strip_chars. rewrite lstrip_nonspace by done. rewrite reverse_cons.
  destruct (lstrip_snoc_nonspace (reverse r) "."%char) as [y ->]; [done|].
  exists (reverse y). by rewrite reverse_snoc.
Qed.

Lemma strip_idem (s : string) : strip (strip s) = strip s.
Proof. unfold strip. by rewrite chars_of_list, strip_chars_idem. Qed.

Lemma strip_startswith_dot (s : string) :
  startswith "." s → startswith "." (strip s).
Proof.
  intros H%Is_true_true. apply startswith_dot in H as [r Hr].
  apply Is_true_true, startswith_dot. unfold strip.
  rewrite chars_of_list, Hr. apply strip_chars_dot.
Qed.

(** Every line that [readlines] returns holds no line end before its last
    character. *)
Lemma readlines_chars_shape l cur :
  Forall (λ c, c ≠ "010"%char ∧ c ≠ "013"%char) cur →
  Forall (λ line, ∃ b, (line = b ++ ["010"%char] ∨ line = b) ∧
                       Forall (λ c, c ≠ "010"%char ∧ c ≠ "013"%char) b)
         (readlines_chars l cur).
Proof.
  revert cur. induction l as [|c l IH]; intros cur Hcur.
  - destruct cur; simpl; [constructor|]. apply Forall_singleton. eauto.
  - cbn [readlines_chars]. destruct (decide (c = "010"%char)) as [->|Hc1].
    { apply Forall_cons. split; [eauto | by apply IH]. }
    destruct (decide (c = "013"%char)) as [->|Hc2].
    + apply Forall_cons. split; [eauto|].
      destruct l as [|c' l']; [constructor|].
      destruct (decide (c' = "010"%char)) as [->|Hc']; [|by apply IH].
      specialize (IH [] (Forall_nil_2 _)). cbn [readlines_chars] in IH.
      rewrite decide_True in IH by done. by apply Forall_cons in IH as [_ ?].
    + apply IH, Forall_app. split; [done|]. by apply Forall_singleton.
Qed.

Lemma readlines_strip_one_line (text line : string) :
  line ∈ readlines text → one_line (strip line).
Proof.
  unfold readlines. intros (l & -> & Hin)%list_elem_of_fmap.
  pose proof (readlines_chars_shape (chars text) [] (Forall_nil_2 _)) as Hs.
  rewrite Forall_forall in Hs. destruct (Hs l Hin) as (b & [->| ->] & Hb).
  - unfold one_line, strip. rewrite !chars_of_list.
    rewrite strip_chars_snoc_space by done. by apply strip_chars_Forall.
  - unfold one_line, strip. rewrite !chars_of_list.
    by apply strip_chars_Forall.
Qed.

Lemma elem_of_pla_header lines h :
  h ∈ pla_header lines ↔
  ∃ line, line ∈ lines ∧ startswith "." line ∧ h = strip line.
Proof.
  unfold pla_header. rewrite list_elem_of_fmap. split.
  - intros (line & -> & [? ?]%list_elem_of_filter). by exists line.
  - intros (line & ? & ? & ->). exists line. split; [done|].
    by apply list_elem_of_filter.
Qed.

Lemma parse_pla_returned lines header minterms :
  (parse_pla lines).2 = Returned (header, minterms) →
  header = pla_header lines ∧
  Forall (λ b, length (split " " b) = 2) (pla_body lines) ∧
  minterms = omap selected (pla_body lines).
Proof.
  unfold parse_pla. simpl. rewrite parse_body_spec.
  case_decide as Hb; [|done]. by intros [= <- <-].
Qed.

(** A minterm that [parse_pla] returns is not empty and holds no space. *)
Lemma parse_pla_minterm_shape lines header minterms m :
  (parse_pla lines).2 = Returned (header, minterms) →
  m ∈ minterms → m ≠ "" ∧ " "%char ∉ chars m.
Proof.
  intros (_ & Hb & ->)%parse_pla_returned.
  intros (b & Hin & Hsel)%list_elem_of_omap.
  rewrite Forall_forall in Hb. pose proof (Hb b Hin) as Hlen.
  apply elem_of_pla_body in Hin as (line & _ & _ & -> & _).
  pose proof Hsel as Hdata. apply selected_data in Hdata; [|done].
  unfold selected, split in Hsel.
  destruct (split_chars " " (chars (strip line))) as [|a [|o [|]]] eqn:E;
    try done.
  apply split_chars_pair in E as (_ & Ha & _). simpl in Hsel.
  case_decide; [|done]. injection Hsel as <-. rewrite chars_of_list.
  split; [|done]. intros Hm. apply (f_equal chars) in Hdata.
  rewrite Hm in Hdata. unfold strip in Hdata. rewrite chars_of_list in Hdata.
  simpl in Hdata. by apply strip_chars_head in Hdata.
Qed.
End strip.

(** X18: the header lines [parse_pla] returns start with a dot and are
    stripped, and the minterms it returns are not empty and hold no
    space. *)
Theorem parse_pla_well_formed (lines header minterms : list string) :
  (parse_pla lines).2 = Returned (header, minterms) →
  Forall (λ h, startswith "." h ∧ strip h = h) header ∧
  Forall (λ m, m ≠ "" ∧ " "%char ∉ chars m) minterms.
Proof.
  intros Hret. split.
  - apply parse_pla_returned in Hret as (-> & _).
    apply Forall_forall.
    intros h (line & _ & Hd & ->)%elem_of_pla_header.
    split; [by apply strip_startswith_dot | apply strip_idem].
  - apply Forall_forall. intros m Hm.
    by apply (parse_pla_minterm_shape lines header minterms).
Qed.

Lemma parse_pla_well_formed_witness :
  Forall (λ h, startswith "." h ∧ strip h = h) [".i 4"] ∧
  Forall (λ m, m ≠ "" ∧ " "%char ∉ chars m) ["0001"; "0011"].
Proof.
  apply (parse_pla_well_formed [" .o 2"; ".i 4  "; "0001 1"; " 0011 1 "]).
  vm_compute. reflexivity.
Defined.

(** * The whole program *)

Section whole.
Implicit Types t m : string.

(** An implicant covers some input minterm. *)
Lemma good_term_covers (minterms : list string) n t :
  good_term minterms n t → ∃ m, m ∈ minterms ∧ String.length m = String.length t.
Proof.
  intros (_ & Ht & Hs).
  set (m := string_of_list_ascii
              ((λ c, if decide (c = "-"%char) then "0"%char else c) <$> chars t)).
  assert (subsumes t m) as Hsub.
  { unfold subsumes, m. rewrite chars_of_list.
    induction (chars t) as [|c l IH]; [constructor|].
    rewrite fmap_cons. apply Forall2_cons. split; [|done].
    unfold admits. case_decide; auto. }
  exists m. split; [|symmetry; by apply subsumes_length].
  apply Hs; [|done]. unfold binary, m. rewrite chars_of_list.
  apply Forall_fmap. unfold ternary in Ht. eapply Forall_impl; [done|].
  simpl. intros c [?|[?|?]]; case_decide; auto; done.
Qed.

Lemma replace_ternary t : ternary t → replace_char "2" "-" t = t.
Proof.
  intros Ht. apply chars_inj. unfold replace_char. rewrite chars_of_list.
  rewrite <-(list_fmap_id (chars t)) at 2. apply Forall_fmap_ext_1.
  unfold ternary in Ht. eapply Forall_impl; [done|].
  simpl. by intros c [->|[->| ->]].
Qed.

Lemma ternary_writable t : t ≠ "" → ternary t → writable t.
Proof.
  intros Hne Ht. split; [done|]. unfold ternary in Ht.
  eapply Forall_impl; [done|]. simpl. intros c [?|[?|?]]; auto.
Qed.
End whole.

(** X19: the file [main] writes is parsed back by [parse_pla]: for an
    input file whose minterms are over ['0'] and ['1'] and of one
    length, the output file holds the header of the input, with [.e]
    once at its end, and as its terms the prime implicants of the input
    minterms, each once. *)
Theorem main_output_parses_back
    (fuel n : nat) (text : string) (writes header minterms : list string) :
  (parse_pla (readlines text)).2 = Returned (header, minterms) →
  valid_input n minterms →
  n < fuel →
  main_writes fuel text writes →
  ∃ listing,
    parse_pla (readlines (file_text writes))
    = (listing, Returned (filter (λ h, h ≠ ".e") header ++ [".e"], listing)) ∧
    NoDup listing ∧
    ∀ t, t ∈ listing ↔ prime_implicant minterms n t.
Proof.
  intros Hparse Hvalid Hfuel (header' & minterms' & res & listing &
                              Hparse' & Hmin & Hperm & ->).
  rewrite Hparse in Hparse'. injection Hparse' as <- <-.
  destruct (minimize_exact minterms n Hvalid) as (r & st & Hr & Hrun & _ & Hp).
  assert (res = ∅ ∪ checked st) as ->.
  { unfold minimize in Hmin. rewrite Hrun in Hmin by lia. by injection Hmin. }
  assert (∀ t, t ∈ listing ↔ prime_implicant minterms n t) as Hlist.
  { intros t. rewrite Hperm, elem_of_elements, <-Hp. set_solver. }
  exists listing.
  assert (Forall (λ t, t ≠ "" ∧ ternary t) listing) as Hterms.
  { apply Forall_forall. intros t [Hgood _]%Hlist.
    split; [|by destruct Hgood as (_ & ? & _)].
    destruct (good_term_covers minterms n t Hgood) as (m & Hm & Hlen).
    destruct (parse_pla_minterm_shape _ _ _ m Hparse Hm) as [Hne _].
    intros ->. by destruct m. }
  assert (replace_char "2" "-" <$> listing = listing) as Erep.
  { rewrite <-(list_fmap_id listing) at 2. apply Forall_fmap_ext_1.
    eapply Forall_impl; [done|]. intros t [_ Ht]. by apply replace_ternary. }
  split; [|split; [|done]].
  - rewrite write_then_parse, Erep; [done| |].
    + apply Forall_forall. intros h Hh.
      apply parse_pla_returned in Hparse as (-> & _).
      apply elem_of_pla_header in Hh as (line & Hin & Hd & ->).
      split; [by apply strip_startswith_dot|].
      split; [apply strip_idem | by apply (readlines_strip_one_line text)].
    + eapply Forall_impl; [done|]. intros t [? ?]. by apply ternary_writable.
  - rewrite Hperm. apply NoDup_elements.
Qed.

Lemma main_output_parses_back_witness :
  ∃ listing,
    parse_pla (readlines (file_text
      (write_pla [".i 4"; ".o 1"; ".e"]
                 (elements ({[ "00-1"; "0-11" ]} : gset string)))))
    = (listing, Returned (filter (λ h, h ≠ ".e") [".i 4"; ".o 1"; ".e"]
                            ++ [".e"], listing)) ∧
    NoDup listing ∧
    ∀ t, t ∈ listing ↔ prime_implicant ["0001"; "0011"; "0111"] 4 t.
Proof.
  apply (main_output_parses_back 5 4
           (file_text [".i 4" +:+ newline; ".o 1" +:+ newline;
                       "0001 1" +:+ newline; "0011 1" +:+ newline;
                       "0111 1" +:+ newline; ".e" +:+ newline])).
  - vm_compute. reflexivity.
  - apply (bool_decide_unpack _). vm_compute. exact I.
  - lia.
  - exists [".i 4"; ".o 1"; ".e"], ["0001"; "0011"; "0111"],
      {[ "00-1"; "0-11" ]}, (elements ({[ "00-1"; "0-11" ]} : gset string)).
    split; [vm_compute; reflexivity|].
    split; [apply (bool_decide_unpack _); vm_compute; exact I|].
    split; reflexivity.
Defined.

Lemma pla_round_trip_witness :
  parse_pla (readlines (file_text
    (write_pla [".i 4"; ".o 1"; ".e"] ["00-1"; "0211"])))
  = (replace_char "2" "-" <$> ["00-1"; "0211"],
     Returned (filter (λ h, h ≠ ".e") [".i 4"; ".o 1"; ".e"] ++ [".e"],
               replace_char "2" "-" <$> ["00-1"; "0211"])).
Proof.
  apply (pla_round_trip [".i 4"; ".o 1"; ".e"] ["00-1"; "0211"]).
  - apply (bool_decide_unpack _). vm_compute. exact I.
  - apply (bool_decide_unpack _). vm_compute. exact I.
Defined.

Lemma round_tries_every_combinable_pair_witness :
  (1, "0001", "0011")
    ∈ candidates (groups (Nat.iter 0 round
                            (minimize_init ["0001"; "0011"; "0111"])))
  ∨ (2, "0011", "0001")
    ∈ candidates (groups (Nat.iter 0 round
                            (minimize_init ["0001"; "0011"; "0111"]))).
Proof.
  apply (round_tries_every_combinable_pair
           ["0001"; "0011"; "0111"] 4 0 1 2 "0001" "0011" "00-1").
  - apply (bool_decide_unpack _). vm_compute. exact I.
  - exists ["0001"]. split; [vm_compute; reflexivity | apply list_elem_of_here].
  - exists ["0011"]. split; [vm_compute; reflexivity | apply list_elem_of_here].
  - discriminate.
  - reflexivity.
Defined.
